(** * Campus-network multicast experiment: reachability evaluation and trial driver

    A shallow embedding of [campus_net_experiment.py]
    ([SmartCampusNetworkxExperiment]) together with the part of the
    networkx [Graph] interface the experiment calls:
    [copy], [remove_edges_from], [remove_nodes_from], the [graph]
    attribute dictionary and [single_source_shortest_path]; and the part
    of the [logging] module [__init__] calls: [getLevelName] and
    [basicConfig].

    Graph objects live in a heap and are handled through references, as
    Python does: [get_reachability] edits the objects it is handed in
    place.  Every method is a computation in a state-and-exception monad
    whose state survives a raised exception. *)

From Stdlib Require Import QArith Qcanon.
From stdpp Require Import base option gmap sets list strings numbers relations.

#[local] Set Warnings "-clear-no-such-hyp".

Local Open Scope Z_scope.
Local Open Scope nat_scope.

(** ** Exceptions and the state-and-exception monad *)

Inductive exn :=
  | KeyError
  | IndexError
  | ValueError
  | ZeroDivisionError
  | NotImplementedError
  | IOError           (* [OSError] and its subclasses in Python 3 *)
  | ReferenceError.   (* a reference to no live object *)

Definition result (A : Type) : Type := exn + A.

Definition is_error {A} (r : result A) : Prop :=
  match r with inl _ => True | inr _ => False end.

Definition returned {A} (r : result A) : option A :=
  match r with inl _ => None | inr a => Some a end.

Module Py.

Definition M (S A : Type) : Type := S → result A * S.

Definition ret {S A} (a : A) : M S A := λ s, (inr a, s).

Definition raise {S A} (e : exn) : M S A := λ s, (inl e, s).

Definition bind {S A B} (m : M S A) (k : A → M S B) : M S B :=
  λ s, match m s with
       | (inr a, s') => k a s'
       | (inl e, s') => (inl e, s')
       end.

Definition of_result {S A} (r : result A) : M S A := λ s, (r, s).

Definition get {S} : M S S := λ s, (inr s, s).

Definition put {S} (s : S) : M S unit := λ _, (inr tt, s).

Definition modify {S} (f : S → S) : M S unit := λ s, (inr tt, f s).

(** [for x in xs: acc = body acc x], stopping at the first exception. *)
Fixpoint for_each {S A B} (xs : list A) (body : B → A → M S B) (acc : B)
    : M S B :=
  match xs with
  | [] => ret acc
  | x :: xs' => bind (body acc x) (for_each xs' body)
  end.

(** Run a computation on a component of the state. *)
Definition zoom {S T A} (proj : T → S) (upd : S → T → T) (m : M S A) : M T A :=
  λ t, let '(r, s') := m (proj t) in (r, upd s' t).

End Py.

Global Instance M_ret {S} : MRet (Py.M S) := λ A, Py.ret.
Global Instance M_bind {S} : MBind (Py.M S) := λ A B k m, Py.bind m k.

(** ** networkx graphs *)

Abbreviation node := string (only parsing).

(** An undirected [networkx.Graph]: its node set, its edges (an edge is
    stored once, in either orientation) and the graph attribute
    dictionary [G.graph].  Only edges between two nodes of the graph
    count. *)
Record Graph := mkGraph {
  nodes : gset node;
  edges : gset (node * node);
  graph : gmap string string;
}.

Definition linked (G : Graph) (u v : node) : Prop :=
  (u, v) ∈ edges G ∨ (v, u) ∈ edges G.

Global Instance linked_dec G u v : Decision (linked G u v).
Proof. unfold linked. apply _. Defined.

(** [G[v]]: the neighbours of [v]. *)
Definition neighbors (G : Graph) (v : node) : gset node :=
  filter (λ w, linked G v w) (nodes G).

(** [G.remove_edges_from(ebunch)]: edges that are absent are skipped. *)
Definition remove_edge (G : Graph) (e : node * node) : Graph :=
  let '(u, v) := e in
  mkGraph (nodes G) (edges G ∖ {[ (u, v) ]} ∖ {[ (v, u) ]}) (graph G).

Definition remove_edges_from (ebunch : list (node * node)) (G : Graph) : Graph :=
  foldl remove_edge G ebunch.

(** [G.remove_nodes_from(ns)]: a node goes with its incident edges;
    nodes that are absent are skipped. *)
Definition remove_node (G : Graph) (n : node) : Graph :=
  if decide (n ∈ nodes G)
  then mkGraph (nodes G ∖ {[ n ]})
               (filter (λ e, e.1 ≠ n ∧ e.2 ≠ n) (edges G))
               (graph G)
  else G.

Definition remove_nodes_from (ns : list node) (G : Graph) : Graph :=
  foldl remove_node G ns.

(** [nx.single_source_shortest_path(G, source)] explores the graph level
    by level from [source]; the caller keeps only the keys of the
    returned dictionary, which [paths] stands for here.  One round of the
    [while nextlevel] loop adds to [paths] the neighbours of [thislevel]
    not yet in [paths]; they form the next level.  The loop runs at most
    once per node of the graph, plus the round that finds the level
    empty. *)
Fixpoint bfs_levels (rounds : nat) (G : Graph)
    (nextlevel paths : gset node) : gset node :=
  match rounds with
  | 0 => paths
  | S rounds' =>
      if decide (nextlevel = ∅) then paths
      else
        let thislevel := nextlevel in
        let found := set_bind (neighbors G) thislevel ∖ paths in
        bfs_levels rounds' G found (paths ∪ found)
  end.

(** Looking up [G[source]] for a [source] that is not a node raises. *)
Definition single_source_shortest_path (G : Graph) (source : node)
    : result (gset node) :=
  if decide (source ∈ nodes G)
  then inr (bfs_levels (S (size (nodes G))) G {[ source ]} {[ source ]})
  else inl KeyError.

(** ** The heap of graph objects *)

Abbreviation ref := nat (only parsing).
Abbreviation heap := (gmap nat Graph) (only parsing).

Definition deref (r : ref) : Py.M heap Graph :=
  λ h, match h !! r with
       | Some G => (inr G, h)
       | None => (inl ReferenceError, h)
       end.

(** A method call that edits the object behind [r] in place. *)
Definition mutate (r : ref) (f : Graph → Graph) : Py.M heap unit :=
  G ← deref r;
  Py.modify (insert r (f G)).

Definition new_object (G : Graph) : Py.M heap ref :=
  λ h, let r := fresh (dom h) in (inr r, <[r := G]> h).

(** [G.copy()] *)
Definition copy (r : ref) : Py.M heap ref :=
  G ← deref r;
  new_object G.

(** [G.graph[key] = value] *)
Definition set_graph_attr (r : ref) (key value : string) : Py.M heap unit :=
  mutate r (λ G, mkGraph (nodes G) (edges G) (<[key := value]> (graph G))).

(** [G.graph[key]] *)
Definition get_graph_attr (r : ref) (key : string) : Py.M heap string :=
  G ← deref r;
  match graph G !! key with
  | Some v => Py.ret v
  | None => Py.raise KeyError
  end.

(** ** Reachability *)

(** The quotient [a / b] of two lengths, [b] not zero. *)
Definition fraction (a b : nat) : Qc :=
  Q2Qc (Qmake (Z.of_nat a) (Pos.of_nat b)).

(** [float(a) / b] for two lengths, as the exact quotient. *)
Definition float_div (a b : nat) : result Qc :=
  match b with
  | 0 => inl ZeroDivisionError
  | S _ => inr (fraction a b)
  end.

Definition get_reachability (failed_nodes : list node)
    (failed_links : list (node * node)) (server : node)
    (subscribers : gset node) (topologies : list ref) : Py.M heap Qc :=
  all_subscribers_reachable ←
    Py.for_each topologies (λ all_subscribers_reachable topology,
      mutate topology (remove_edges_from failed_links);;
      mutate topology (remove_nodes_from failed_nodes);;
      G ← deref topology;
      nodes_reachable ← Py.of_result (single_source_shortest_path G server);
      let subscribers_reachable := subscribers ∩ nodes_reachable in
      let all_subscribers_reachable :=
        all_subscribers_reachable ∪ subscribers_reachable in
      (* the arguments of the log line are evaluated *)
      _ ← get_graph_attr topology "heuristic";
      Py.ret all_subscribers_reachable) ∅;
  Py.of_result (float_div (size all_subscribers_reachable) (size subscribers)).

(** ** One trial *)

Inductive pyval :=
  | PyFloat (q : Qc)
  | PyInt (z : Z)
  | PyNone.

(** [run_experiment]; [self_topo] is the graph object [self.topo.topo]. *)
Definition run_experiment (self_topo : ref) (failed_nodes : list node)
    (failed_links : list (node * node)) (server : node)
    (subscribers : list node) (trees : list ref)
    : Py.M heap (gmap string pyval) :=
  let subscribers : gset node := list_to_set subscribers in
  let result : gmap string pyval := ∅ in
  topo_copy ← copy self_topo;
  set_graph_attr topo_copy "heuristic" "oracle";;
  let topos_to_check := [topo_copy] in
  res ← get_reachability failed_nodes failed_links server subscribers
          topos_to_check;
  key ← get_graph_attr topo_copy "heuristic";
  let result := <[key := PyFloat res]> result in
  res ← get_reachability failed_nodes failed_links server subscribers trees;
  tree0 ← Py.of_result (from_option inr (inl IndexError) (trees !! 0));
  heuristic ← get_graph_attr tree0 "heuristic";
  let result := <[heuristic := PyFloat res]> result in
  Py.ret result.

(** ** The collaborators of the experiment *)

(** The generators of the [random] module: the generator
    [random.Random(seed)] of an integer seed, and the draws behind
    [sample] and [choice] once their arguments are checked. *)
Class RandomSource (rng : Type) := {
  Random : Z → rng;
  draw_sample : rng → list node → nat → list node * rng;
  draw_choice : rng → node → list node → node * rng;
}.

(** Modelled from the spec: the failure model ([failure_model.py] is not
    among the sources), through its interface
    [apply_failure_model(topology) -> (failed_nodes, failed_links)] and
    [get_params()].  A failure model has a state of its own and may also
    draw on the generator of the [random] module; it reads the topology
    and does not edit it. *)
Class FailureModel (fm rng : Type) := {
  SmartCampusFailureModel : fm;
  fm_apply_failure_model : Graph → Py.M (fm * rng) (list node * list (node * node));
  fm_get_params : fm → gmap string string;
}.

(** Modelled from the spec: the topology provider
    ([networkx_sdn_topology.py] is not among the sources), through its
    interface [get_hosts()], [get_servers()] and
    [get_redundant_multicast_trees(source, subscribers, k, heuristic)].
    Building trees may create graph objects or hand out existing ones,
    may raise, and may draw on the generator of the [random] module. *)
Class TopologyProvider (rng : Type) := {
  NetworkxSdnTopology : list string → Graph;
  get_hosts : Graph → list node;
  get_servers : Graph → list node;
  get_redundant_multicast_trees :
    ref → node → list node → Z → string → Py.M (gmap nat Graph * rng) (list ref);
}.

(** ** The [logging] module

    [__init__] reads the debug level by name and configures the root
    logger.  The module keeps a table from level names to levels
    ([_levelNames]; [logging.addLevelName] extends it), and the root
    logger its handlers and its level. *)
Record logging_state := mkLogging {
  level_names : gmap string Z;
  root_handlers : nat;
  root_level : Z;
}.

(** [s.upper()] on a byte string: the letters a to z. *)
Definition ascii_upper (c : Ascii.ascii) : Ascii.ascii :=
  let n := Ascii.nat_of_ascii c in
  if decide (97 ≤ n ≤ 122) then Ascii.ascii_of_nat (n - 32) else c.

Fixpoint upper (s : string) : string :=
  match s with
  | EmptyString => EmptyString
  | String c s' => String (ascii_upper c) (upper s')
  end.

(** [logging.getLevelName(level)] for a string: the level of that name,
    or else the string ["Level %s" % level]. *)
Definition getLevelName (names : gmap string Z) (level : string) : Z + string :=
  match names !! level with
  | Some n => inl n
  | None => inr ("Level " +:+ level)
  end.

(** [logging._checkLevel(level)], which [Logger.setLevel] calls: a number
    is a level, a string has to be the name of one. *)
Definition checkLevel (names : gmap string Z) (level : Z + string) : result Z :=
  match level with
  | inl n => inr n
  | inr name => from_option inr (inl ValueError) (names !! name)
  end.

(** [logging.basicConfig(format=..., level=level)] does nothing when the
    root logger has a handler; else it adds one to the root logger and
    then sets the level of the root logger. *)
Definition basicConfig (level : Z + string) : Py.M logging_state unit :=
  l ← Py.get;
  if decide (root_handlers l = 0)
  then Py.put (mkLogging (level_names l) (S (root_handlers l)) (root_level l));;
       rv ← Py.of_result (checkLevel (level_names l) level);
       Py.modify (λ l, mkLogging (level_names l) (root_handlers l) rv)
  else Py.ret tt.

(** ** The experiment object and the state of the run *)

(** The results document: its static [params] ... *)
Record params := mkParams {
  params_ntrees : Z;
  params_nsubscribers : Z;
  params_failure_model : gmap string string;
  params_topo : list string;
  params_randseed : option Z;
  params_failrandseed : pyval;
}.

(** ... and the fields of [self] that never change after [__init__];
    [topo] is the graph object [self.topo.topo]. *)
Record experiment := mkExperiment {
  nruns : Z;
  ntrees : Z;
  nsubscribers : Z;
  output_filename : string;
  mcast_heuristic : string;
  topo : ref;
  results_params : params;
}.

(** What a run reads and writes: the graph objects, [self.random], the
    generator of the [random] module, the failure model,
    [self.results['results']], the files written, the entropy of the
    system, the state of the [logging] module, and the paths that
    [open(path, "w")] opens (a file that opens is written in full). *)
Record world (rng fm : Type) := mkWorld {
  objects : gmap nat Graph;
  self_random : rng;
  module_random : rng;
  failure_model : fm;
  results : list (gmap string pyval);
  files : gmap string (params * list (gmap string pyval));
  entropy : rng;
  logging : logging_state;
  writable : string → bool;
}.

Arguments mkWorld {rng fm}.
Arguments objects {rng fm}.
Arguments self_random {rng fm}.
Arguments module_random {rng fm}.
Arguments failure_model {rng fm}.
Arguments results {rng fm}.
Arguments files {rng fm}.
Arguments entropy {rng fm}.
Arguments logging {rng fm}.
Arguments writable {rng fm}.

Definition set_objects {rng fm} (h : gmap nat Graph) (w : world rng fm)
    : world rng fm :=
  mkWorld h (self_random w) (module_random w) (failure_model w) (results w)
    (files w) (entropy w) (logging w) (writable w).

Definition set_self_random {rng fm} (g : rng) (w : world rng fm)
    : world rng fm :=
  mkWorld (objects w) g (module_random w) (failure_model w) (results w)
    (files w) (entropy w) (logging w) (writable w).

Definition set_module_random {rng fm} (g : rng) (w : world rng fm)
    : world rng fm :=
  mkWorld (objects w) (self_random w) g (failure_model w) (results w)
    (files w) (entropy w) (logging w) (writable w).

Definition set_failure_model {rng fm} (f : fm) (w : world rng fm)
    : world rng fm :=
  mkWorld (objects w) (self_random w) (module_random w) f (results w)
    (files w) (entropy w) (logging w) (writable w).

Definition set_results {rng fm} (rs : list (gmap string pyval))
    (w : world rng fm) : world rng fm :=
  mkWorld (objects w) (self_random w) (module_random w) (failure_model w) rs
    (files w) (entropy w) (logging w) (writable w).

Definition set_files {rng fm}
    (fs : gmap string (params * list (gmap string pyval)))
    (w : world rng fm) : world rng fm :=
  mkWorld (objects w) (self_random w) (module_random w) (failure_model w)
    (results w) fs (entropy w) (logging w) (writable w).

Definition set_logging {rng fm} (l : logging_state) (w : world rng fm)
    : world rng fm :=
  mkWorld (objects w) (self_random w) (module_random w) (failure_model w)
    (results w) (files w) (entropy w) l (writable w).

(** Computations on the graph objects, run in the state of the run. *)
Definition on_objects {rng fm A} (m : Py.M (gmap nat Graph) A)
    : Py.M (world rng fm) A :=
  Py.zoom objects set_objects m.

(** ** The [random] module *)

(** [rng.sample(population, k)] *)
Definition sample `{RandomSource rng} (population : list node) (k : Z)
    : Py.M rng (list node) :=
  if decide (0 ≤ k ≤ Z.of_nat (length population))%Z
  then g ← Py.get;
       let '(chosen, g') := draw_sample g population (Z.to_nat k) in
       Py.put g';;
       Py.ret chosen
  else Py.raise ValueError.

(** [rng.choice(seq)] *)
Definition choice `{RandomSource rng} (seq : list node) : Py.M rng node :=
  match seq with
  | [] => Py.raise IndexError
  | x :: xs =>
      g ← Py.get;
      let '(chosen, g') := draw_choice g x xs in
      Py.put g';;
      Py.ret chosen
  end.

(** [random.Random(seed)] and [random.seed(seed)]: without a seed the
    generator comes from the entropy of the system. *)
Definition seeded `{RandomSource rng} (seed : option Z) (entropy : rng) : rng :=
  match seed with
  | Some n => Random n
  | None => entropy
  end.

(** ** [SmartCampusNetworkxExperiment] *)

Section experiment.
Context {rng fm : Type} `{!RandomSource rng, !FailureModel fm rng,
  !TopologyProvider rng}.

(** [__init__] *)
Definition init (nruns ntrees : Z) (mcast_heuristic : string)
    (nsubscribers : Z) (failure_model : option fm) (topo : list string)
    (debug output_filename : string) (choice_rand_seed rand_seed : option Z)
    (kwargs : gmap string pyval) : Py.M (world rng fm) experiment :=
  w ← Py.get;
  let log_level := getLevelName (level_names (logging w)) (upper debug) in
  Py.zoom logging set_logging (basicConfig log_level);;
  w ← Py.get;
  Py.put (set_self_random (seeded choice_rand_seed (entropy w)) w);;
  Py.modify (set_module_random (seeded rand_seed (entropy w)));;
  let failure_model := default SmartCampusFailureModel failure_model in
  Py.modify (set_failure_model failure_model);;
  topo0 ← Py.of_result (from_option inr (inl IndexError) (topo !! 0));
  topology ←
    (if decide (topo0 = "networkx")
     then on_objects (new_object (NetworkxSdnTopology (drop 1 topo)))
     else Py.raise NotImplementedError);
  Py.modify (set_results []);;
  failrandseed ←
    Py.of_result (from_option inr (inl KeyError) (kwargs !! "failure_rand_seed"));
  Py.ret (mkExperiment nruns ntrees nsubscribers output_filename mcast_heuristic
            topology
            (mkParams ntrees nsubscribers (fm_get_params failure_model) topo
               choice_rand_seed failrandseed)).

Definition record_result (result : gmap string pyval)
    : Py.M (world rng fm) unit :=
  Py.modify (λ w, set_results (results w ++ [result]) w).

Definition output_results (self : experiment) : Py.M (world rng fm) unit :=
  w ← Py.get;
  if writable w (output_filename self)
  then Py.modify (λ w,
         set_files
           (<[output_filename self := (results_params self, results w)]> (files w))
           w)
  else Py.raise IOError.

Definition apply_failure_model (self : experiment)
    : Py.M (world rng fm) (list node * list (node * node)) :=
  G ← on_objects (deref (topo self));
  Py.zoom (λ w, (failure_model w, module_random w))
          (λ s w, set_module_random s.2 (set_failure_model s.1 w))
          (fm_apply_failure_model G).

Definition choose_subscribers (self : experiment)
    : Py.M (world rng fm) (list node) :=
  G ← on_objects (deref (topo self));
  let hosts := get_hosts G in
  Py.zoom self_random set_self_random (sample hosts (nsubscribers self)).

Definition choose_server (self : experiment) : Py.M (world rng fm) node :=
  G ← on_objects (deref (topo self));
  Py.zoom self_random set_self_random (choice (get_servers G)).

Definition build_mcast_trees (self : experiment) (source : node)
    (subscribers : list node) : Py.M (world rng fm) (list ref) :=
  trees ←
    Py.zoom (λ w, (objects w, module_random w))
            (λ s w, set_module_random s.2 (set_objects s.1 w))
            (get_redundant_multicast_trees (topo self) source subscribers
               (ntrees self) (mcast_heuristic self));
  Py.for_each trees (λ _ tree,
    on_objects (set_graph_attr tree "heuristic" (mcast_heuristic self))) tt;;
  Py.ret trees.

(** [range(n)] *)
Definition range (n : Z) : list Z := Z.of_nat <$> seq 0 (Z.to_nat n).

(** One turn of the loop of [run_all_experiments]. *)
Definition trial (self : experiment) (r : Z) : Py.M (world rng fm) unit :=
  subs ← choose_subscribers self;
  server ← choose_server self;
  failures ← apply_failure_model self;
  let '(failed_nodes, failed_links) := failures in
  trees ← build_mcast_trees self server subs;
  result ← on_objects
    (run_experiment (topo self) failed_nodes failed_links server subs trees);
  let result := <["run" := PyInt r]> result in
  record_result result.

Definition run_all_experiments (self : experiment) : Py.M (world rng fm) unit :=
  Py.for_each (range (nruns self)) (λ _ r, trial self r) tt;;
  output_results self.

End experiment.

(** ** What the claims speak of: reachability in a graph and under failures *)

(** Two nodes of [G] joined by an edge. *)
Definition adjacent (G : Graph) (u v : node) : Prop :=
  u ∈ nodes G ∧ v ∈ nodes G ∧ linked G u v.

(** [v] can be reached from [s] by a path of [G]. *)
Definition connected (G : Graph) (s v : node) : Prop :=
  s ∈ nodes G ∧ rtc (adjacent G) s v.

(** An edge of [G] that no failure touches. *)
Definition surviving (failed_nodes : list node)
    (failed_links : list (node * node)) (G : Graph) (u v : node) : Prop :=
  adjacent G u v ∧ (u ∉ failed_nodes) ∧ (v ∉ failed_nodes) ∧
  ((u, v) ∉ failed_links) ∧ ((v, u) ∉ failed_links).

(** [v] is reachable from [s] in [G] once the failed links and the
    failed nodes are gone. *)
Definition reachable_after_failures (failed_nodes : list node)
    (failed_links : list (node * node)) (G : Graph) (s v : node) : Prop :=
  s ∈ nodes G ∧ (s ∉ failed_nodes) ∧
  rtc (surviving failed_nodes failed_links G) s v.

(** The graph an evaluation leaves behind. *)
Definition prune (failed_nodes : list node)
    (failed_links : list (node * node)) (G : Graph) : Graph :=
  remove_nodes_from failed_nodes (remove_edges_from failed_links G).

(** [T] is a subgraph of [G]. *)
Definition subgraph (T G : Graph) : Prop :=
  nodes T ⊆ nodes G ∧ ∀ u v, adjacent T u v → adjacent G u v.

(** A subscriber is served when at least one candidate graph still
    connects it to the server after the failures. *)
Definition served (failed_nodes : list node)
    (failed_links : list (node * node)) (server : node)
    (subscribers : gset node) (topologies : list ref) (h : heap)
    (v : node) : Prop :=
  v ∈ subscribers ∧
  ∃ r G, r ∈ topologies ∧ h !! r = Some G ∧
    reachable_after_failures failed_nodes failed_links G server v.

(** [get_reachability] returns the number of served subscribers over the
    number of subscribers. *)
Definition returns_served_fraction (failed_nodes : list node)
    (failed_links : list (node * node)) (server : node)
    (subscribers : gset node) (topologies : list ref) (h : heap) : Prop :=
  ∃ U : gset node,
    (∀ v, v ∈ U ↔ served failed_nodes failed_links server subscribers topologies h v) ∧
    (get_reachability failed_nodes failed_links server subscribers topologies h).1
      = inr (fraction (size U) (size subscribers)).

(** ** Definitions used in the proofs *)

(** What holds of [nextlevel] and [paths] at the head of the loop. *)
Record bfs_inv (G : Graph) (s : node) (nextlevel paths : gset node) : Prop := {
  inv_level : nextlevel ⊆ paths;
  inv_nodes : paths ⊆ nodes G;
  inv_source : s ∈ paths;
  inv_sound : ∀ v, v ∈ paths → rtc (adjacent G) s v;
  inv_expanded : ∀ u w, u ∈ paths → u ∉ nextlevel → adjacent G u w → w ∈ paths;
}.

(** The copy of the topology, tagged as the oracle. *)
Definition oracle_copy (G : Graph) : Graph :=
  mkGraph (nodes G) (edges G) (<["heuristic" := "oracle"]> (graph G)).

(** The tag the result of a trial files the trees' score under. *)
Definition heuristic_of (trees : list ref) (h : heap) : option string :=
  t0 ← trees !! 0; T0 ← h !! t0; graph T0 !! "heuristic".

(** What one round of the loop of [get_reachability] computes from the
    graph it finds behind a reference. *)
Definition evaluate (failed_nodes : list node)
    (failed_links : list (node * node)) (server : node)
    (subscribers : gset node) (G : Graph) : result (gset node) :=
  match single_source_shortest_path (prune failed_nodes failed_links G) server with
  | inl e => inl e
  | inr nodes_reachable =>
      match graph G !! "heuristic" with
      | Some _ => inr (subscribers ∩ nodes_reachable)
      | None => inl KeyError
      end
  end.

(** The whole loop, read off the heap it starts from. *)
Fixpoint accumulate (failed_nodes : list node)
    (failed_links : list (node * node)) (server : node)
    (subscribers : gset node) (h : heap) (topologies : list ref)
    (acc : gset node) : result (gset node) :=
  match topologies with
  | [] => inr acc
  | r :: topologies' =>
      match h !! r with
      | None => inl ReferenceError
      | Some G =>
          match evaluate failed_nodes failed_links server subscribers G with
          | inl e => inl e
          | inr reached =>
              accumulate failed_nodes failed_links server subscribers h
                topologies' (acc ∪ reached)
          end
      end
  end.

(** The body of the [for] loop of [get_reachability]. *)
Definition round (fn : list node) (fl : list (node * node)) (server : node)
    (subs : gset node) (acc : gset node) (topology : ref)
    : Py.M heap (gset node) :=
  mutate topology (remove_edges_from fl);;
  mutate topology (remove_nodes_from fn);;
  G ← deref topology;
  nodes_reachable ← Py.of_result (single_source_shortest_path G server);
  _ ← get_graph_attr topology "heuristic";
  Py.ret (acc ∪ subs ∩ nodes_reachable).

(** A computation that leaves the results list and the files alone. *)
Definition keeps_output {rng fm A} (m : Py.M (world rng fm) A) : Prop :=
  ∀ w, results (m w).2 = results w ∧ files (m w).2 = files w.

(** A computation that leaves the [logging] module and the writable
    paths alone. *)
Definition keeps_system {rng fm A} (m : Py.M (world rng fm) A) : Prop :=
  ∀ w, logging (m w).2 = logging w ∧ writable (m w).2 = writable w.

(** The level a debug level names, when it names one: the level of its
    upper-case form, or else of that form with "Level " before it. *)
Definition configured_level (names : gmap string Z) (debug : string)
    : option Z :=
  match names !! upper debug with
  | Some n => Some n
  | None => names !! ("Level " +:+ upper debug)
  end.

(** Two states of the run that differ at most in the files, in the
    entropy of the system, in the state of the [logging] module and in
    the paths that can be written. *)
Definition agree {rng fm} (w1 w2 : world rng fm) : Prop :=
  objects w1 = objects w2 ∧ self_random w1 = self_random w2 ∧
  module_random w1 = module_random w2 ∧ failure_model w1 = failure_model w2 ∧
  results w1 = results w2.

(** A computation that reads none of these. *)
Definition oblivious {rng fm A} (m : Py.M (world rng fm) A) : Prop :=
  ∀ w1 w2, agree w1 w2 → (m w1).1 = (m w2).1 ∧ agree (m w1).2 (m w2).2.

(** A graph with its "heuristic" attribute set. *)
Definition tagged (heuristic : string) (T : Graph) : Graph :=
  mkGraph (nodes T) (edges T) (<["heuristic" := heuristic]> (graph T)).

(** The record of trial [r] of an experiment with the given heuristic:
    the two scores, then the run index. *)
Definition trial_record (heuristic : string) (r : Z)
    (record : gmap string pyval) : Prop :=
  ∃ q_oracle q_trees,
    record = <["run" := PyInt r]>
               (<[heuristic := PyFloat q_trees]> {["oracle" := PyFloat q_oracle]}) ∧
    (0 ≤ q_oracle ≤ 1)%Qc ∧ (0 ≤ q_trees ≤ 1)%Qc.

(** The provider keeps its hands off the graph object of the topology,
    when there is one: it neither edits it nor hands it out as a tree. *)
Definition provider_spares_topology `{TopologyProvider rng}
    (self : experiment) : Prop :=
  ∀ source subscribers (s : gmap nat Graph * rng),
    is_Some (s.1 !! topo self) →
    let out := get_redundant_multicast_trees (topo self) source subscribers
                 (ntrees self) (mcast_heuristic self) s in
    out.2.1 !! topo self = s.1 !! topo self ∧
    ∀ trees, out.1 = inr trees → topo self ∉ trees.

(** ** Examples: the path A - B - C - D *)

Definition path_graph (tag : string) : Graph :=
  mkGraph {[ "A"; "B"; "C"; "D" ]}
          {[ ("A", "B"); ("B", "C"); ("C", "D") ]}
          {[ "heuristic" := tag ]}.

Definition path_heap : heap :=
  {[ 0 := path_graph "topo"; 1 := path_graph "steiner" ]}.

(** The ring A - B - C - D - A, and a heap with the ring as topology and
    the path as its only multicast tree. *)
Definition ring_graph (tag : string) : Graph :=
  mkGraph {[ "A"; "B"; "C"; "D" ]}
          {[ ("A", "B"); ("B", "C"); ("C", "D"); ("D", "A") ]}
          {[ "heuristic" := tag ]}.

Definition ring_heap (tag : string) : heap :=
  {[ 0 := ring_graph "topo"; 1 := path_graph tag ]}.

(** ** Examples: a small campus

    The ring A - B - C - D - A with the server A and the hosts B, C and D;
    a generator that counts its draws; a failure model without failures;
    a provider that builds [k] copies of the path A - B - C - D. *)

Definition campus : Graph :=
  mkGraph {[ "A"; "B"; "C"; "D" ]}
          {[ ("A", "B"); ("B", "C"); ("C", "D"); ("D", "A") ]}
          ∅.

Definition campus_tree : Graph :=
  mkGraph {[ "A"; "B"; "C"; "D" ]}
          {[ ("A", "B"); ("B", "C"); ("C", "D") ]}
          ∅.

#[export] Instance counting_random : RandomSource nat := {|
  Random seed := Z.to_nat seed;
  draw_sample g population k := (take k population, S g);
  draw_choice g x xs := (x, S g);
|}.

#[export] Instance no_failures : FailureModel unit nat := {|
  SmartCampusFailureModel := tt;
  fm_apply_failure_model G := Py.ret ([], []);
  fm_get_params _ := ∅;
|}.

#[export] Instance path_provider : TopologyProvider nat := {|
  NetworkxSdnTopology _ := campus;
  get_hosts G := elements (nodes G ∖ {[ "A" ]});
  get_servers G := ["A"];
  get_redundant_multicast_trees topo source subscribers k heuristic :=
    Py.zoom fst (λ h s, (h, s.2))
      (Py.for_each (seq 0 (Z.to_nat k))
         (λ trees _, tree ← new_object campus_tree; Py.ret (trees ++ [tree])) []);
|}.

(** The level names the [logging] module starts with, and its state in
    a process that has not logged yet: no handler, the root logger at
    WARNING. *)
Definition default_level_names : gmap string Z :=
  {[ "CRITICAL" := 50%Z; "ERROR" := 40%Z; "WARN" := 30%Z; "WARNING" := 30%Z;
     "INFO" := 20%Z; "DEBUG" := 10%Z; "NOTSET" := 0%Z ]}.

Definition fresh_logging : logging_state :=
  mkLogging default_level_names 0 30.

(** The state of a process before [__init__]; every path can be
    written. *)
Definition fresh_process (entropy : nat)
    (fs : gmap string (params * list (gmap string pyval))) : world nat unit :=
  mkWorld ∅ 0 0 tt [] fs entropy fresh_logging (λ _, true).

(** The experiment [__init__] builds on the campus, and the state it
    leaves. *)
Definition campus_experiment (nruns ntrees nsubscribers : Z)
    (output_filename : string) (seed : Z) : experiment :=
  mkExperiment nruns ntrees nsubscribers output_filename "steiner" 0
    (mkParams ntrees nsubscribers ∅ ["networkx"] (Some seed) PyNone).

Definition campus_world_at (level : Z) (seed1 seed2 entropy : nat)
    (fs : gmap string (params * list (gmap string pyval))) : world nat unit :=
  mkWorld {[ 0 := campus ]} seed1 seed2 tt [] fs entropy
    (mkLogging default_level_names 1 level) (λ _, true).

Definition campus_world : nat → nat → nat →
    gmap string (params * list (gmap string pyval)) → world nat unit :=
  campus_world_at 20.

(** The same state in a process that can write no file but "a.json". *)
Definition campus_world_locked (seed1 seed2 entropy : nat) : world nat unit :=
  mkWorld {[ 0 := campus ]} seed1 seed2 tt [] ∅ entropy
    (mkLogging default_level_names 1 20) (String.eqb "a.json").

(** A failure model that counts its calls and fails the server A from
    its second call on. *)
#[export] Instance server_fails_later : FailureModel nat nat := {|
  SmartCampusFailureModel := 0;
  fm_apply_failure_model G :=
    s ← Py.get;
    Py.put (S s.1, s.2);;
    Py.ret (if decide (s.1 = 0) then [] else ["A"], []);
  fm_get_params _ := ∅;
|}.

Definition later_world (seed1 seed2 entropy : nat) : world nat nat :=
  mkWorld {[ 0 := campus ]} seed1 seed2 0 [] ∅ entropy
    (mkLogging default_level_names 1 20) (λ _, true).

(** The campus experiment with another heuristic name. *)
Definition named_experiment (heuristic : string) (nruns : Z) : experiment :=
  mkExperiment nruns 1 2 "results.json" heuristic 0
    (mkParams 1 2 ∅ ["networkx"] (Some 7%Z) PyNone).

(** * Properties *)

(** ** Graph edits *)

Lemma elem_of_neighbors G v w :
  w ∈ neighbors G v ↔ w ∈ nodes G ∧ linked G v w.
Proof. unfold neighbors. rewrite elem_of_filter. tauto. Qed.

Lemma linked_sym G u v : linked G u v ↔ linked G v u.
Proof. unfold linked. tauto. Qed.

Lemma remove_edges_from_nodes fl G :
  nodes (remove_edges_from fl G) = nodes G.
Proof.
  unfold remove_edges_from. revert G.
  induction fl as [|[a b] fl IH]; intros G; simpl; [done|].
  by rewrite IH.
Qed.

Lemma remove_edges_from_graph fl G :
  graph (remove_edges_from fl G) = graph G.
Proof.
  unfold remove_edges_from. revert G.
  induction fl as [|[a b] fl IH]; intros G; simpl; [done|].
  by rewrite IH.
Qed.

Lemma remove_edges_from_edges fl G e :
  e ∈ edges (remove_edges_from fl G) ↔
  e ∈ edges G ∧ (e ∉ fl) ∧ ((e.2, e.1) ∉ fl).
Proof.
  unfold remove_edges_from. revert G. destruct e as [u v]; simpl.
  induction fl as [|[a b] fl IH]; intros G; simpl.
  - rewrite !elem_of_nil. tauto.
  - rewrite IH. simpl.
    rewrite !elem_of_difference, !elem_of_singleton, !not_elem_of_cons.
    split.
    + intros ([[He H1] H2] & H3 & H4). repeat split; try done.
      intros ?; simplify_eq.
    + intros (He & [H1 H3] & [H2 H4]). repeat split; try done.
      intros ?; simplify_eq.
Qed.

Lemma remove_nodes_from_graph fn G :
  graph (remove_nodes_from fn G) = graph G.
Proof.
  unfold remove_nodes_from. revert G.
  induction fn as [|n fn IH]; intros G; simpl; [done|].
  rewrite IH. unfold remove_node. by case_decide.
Qed.

Lemma remove_nodes_from_nodes fn G v :
  v ∈ nodes (remove_nodes_from fn G) ↔ v ∈ nodes G ∧ (v ∉ fn).
Proof.
  unfold remove_nodes_from. revert G.
  induction fn as [|n fn IH]; intros G; simpl.
  - rewrite elem_of_nil. tauto.
  - rewrite IH, not_elem_of_cons. unfold remove_node.
    case_decide; simpl.
    + rewrite elem_of_difference, elem_of_singleton. tauto.
    + split; [|tauto]. intros [? ?]. repeat split; try done. by intros ->.
Qed.

(** Between surviving nodes, removing nodes removes no edge. *)
Lemma remove_nodes_from_linked fn G u v :
  u ∉ fn → v ∉ fn →
  linked (remove_nodes_from fn G) u v ↔ linked G u v.
Proof.
  unfold remove_nodes_from. revert G.
  induction fn as [|n fn IH]; intros G Hu Hv; simpl; [done|].
  apply not_elem_of_cons in Hu as [? ?]. apply not_elem_of_cons in Hv as [? ?].
  rewrite IH by done. unfold remove_node, linked.
  case_decide; simpl; [|done].
  rewrite !elem_of_filter. simpl. tauto.
Qed.

Lemma remove_edges_from_linked fl G u v :
  linked (remove_edges_from fl G) u v ↔
  linked G u v ∧ ((u, v) ∉ fl) ∧ ((v, u) ∉ fl).
Proof.
  unfold linked. rewrite !remove_edges_from_edges. simpl. tauto.
Qed.

(** The edges of the pruned graph are the surviving edges. *)
Lemma adjacent_prune fn fl G u v :
  adjacent (prune fn fl G) u v ↔ surviving fn fl G u v.
Proof.
  unfold adjacent, surviving, prune.
  rewrite !remove_nodes_from_nodes, remove_edges_from_nodes.
  split.
  - intros ((Hu & Hfu) & (Hv & Hfv) & Hl).
    apply remove_nodes_from_linked in Hl; [|done..].
    apply remove_edges_from_linked in Hl. unfold adjacent. tauto.
  - intros ((Hu & Hv & Hl) & Hfu & Hfv & H1 & H2).
    repeat split; try done.
    apply remove_nodes_from_linked; [done..|].
    apply remove_edges_from_linked. tauto.
Qed.

Lemma connected_prune fn fl G s v :
  connected (prune fn fl G) s v ↔ reachable_after_failures fn fl G s v.
Proof.
  unfold connected, reachable_after_failures, prune.
  rewrite remove_nodes_from_nodes, remove_edges_from_nodes.
  assert (rtc (adjacent (prune fn fl G)) s v ↔ rtc (surviving fn fl G) s v)
    as Hrtc.
  { split; apply rtc_subrel; intros x y; apply adjacent_prune. }
  unfold prune in Hrtc. tauto.
Qed.

Lemma prune_graph fn fl G : graph (prune fn fl G) = graph G.
Proof.
  unfold prune. by rewrite remove_nodes_from_graph, remove_edges_from_graph.
Qed.

(** ** The level-by-level search finds exactly the connected nodes *)

Section bfs.
Context (G : Graph) (s : node).

Lemma bfs_inv_init : s ∈ nodes G → bfs_inv G s {[ s ]} {[ s ]}.
Proof.
  intros Hs. split; set_solver.
Qed.

Lemma bfs_inv_step nextlevel paths :
  bfs_inv G s nextlevel paths →
  let found := set_bind (neighbors G) nextlevel ∖ paths in
  bfs_inv G s found (paths ∪ found).
Proof.
  intros [Hl Hn Hs Hsound Hexp] found. split.
  - set_solver.
  - apply union_least; [done|]. intros w [Hw _]%elem_of_difference.
    apply elem_of_set_bind in Hw as (u & _ & Hw).
    by apply elem_of_neighbors in Hw as [? _].
  - set_solver.
  - intros v [Hv|Hv]%elem_of_union; [by apply Hsound|].
    apply elem_of_difference in Hv as [Hv _].
    apply elem_of_set_bind in Hv as (u & Hu & Hv).
    apply elem_of_neighbors in Hv as [Hv Hlink].
    eapply rtc_r; [apply Hsound, Hl, Hu|].
    repeat split; [apply Hn, Hl, Hu|done..].
  - intros u w Hu Hnf Hadj.
    destruct (decide (w ∈ paths)) as [|Hw]; [set_solver|].
    apply elem_of_union in Hu as [Hu|Hu]; [|done].
    apply elem_of_union_r, elem_of_difference. split; [|done].
    destruct (decide (u ∈ nextlevel)) as [Hin|Hout].
    + apply elem_of_set_bind. exists u. split; [done|].
      apply elem_of_neighbors. destruct Hadj as (_ & ? & ?). done.
    + exfalso. apply Hw. by eapply Hexp.
Qed.

(** With enough rounds the loop ends on an empty level, and then
    [paths] is closed under adjacency. *)
Lemma bfs_levels_closed rounds nextlevel paths :
  bfs_inv G s nextlevel paths →
  size (nodes G) < rounds + size paths →
  let R := bfs_levels rounds G nextlevel paths in
  bfs_inv G s ∅ R.
Proof.
  revert nextlevel paths.
  induction rounds as [|rounds IH]; intros nextlevel paths Hinv Hsize; simpl.
  - pose proof (subseteq_size _ _ (inv_nodes _ _ _ _ Hinv)). lia.
  - case_decide as Hempty; [by subst|].
    set (found := set_bind (neighbors G) nextlevel ∖ paths).
    pose proof (bfs_inv_step _ _ Hinv) as Hstep. simpl in Hstep.
    fold found in Hstep.
    destruct (decide (found = ∅)) as [Hf|Hf].
    + rewrite Hf in *. destruct rounds; simpl; [done|].
      by rewrite decide_True.
    + apply IH; [done|].
      rewrite size_union by set_solver.
      assert (size found ≠ 0) by (by rewrite size_empty_iff; intros ?%leibniz_equiv).
      lia.
Qed.

Lemma bfs_closed_complete R :
  bfs_inv G s ∅ R → ∀ v, v ∈ R ↔ rtc (adjacent G) s v.
Proof.
  intros [_ _ Hs Hsound Hexp] v. split; [apply Hsound|].
  revert v. apply (rtc_ind_r (λ v, v ∈ R) s); [done|].
  intros v w _ Hvw IH. eapply Hexp; [apply IH| |done]. set_solver.
Qed.

End bfs.

Lemma single_source_shortest_path_raises G s :
  s ∉ nodes G → single_source_shortest_path G s = inl KeyError.
Proof. intros ?. unfold single_source_shortest_path. by rewrite decide_False. Qed.

Lemma single_source_shortest_path_returns G s :
  s ∈ nodes G →
  ∃ R, single_source_shortest_path G s = inr R ∧ ∀ v, v ∈ R ↔ connected G s v.
Proof.
  intros Hs. unfold single_source_shortest_path. rewrite decide_True by done.
  eexists. split; [done|]. intros v. unfold connected.
  rewrite (bfs_closed_complete G s).
  - tauto.
  - apply bfs_levels_closed; [by apply bfs_inv_init|].
    rewrite size_singleton. lia.
Qed.

(** The search result depends on the graph only through its node set
    and its adjacency. *)
Lemma single_source_shortest_path_ext G1 G2 s :
  (s ∈ nodes G1 ↔ s ∈ nodes G2) →
  (∀ u v, adjacent G1 u v ↔ adjacent G2 u v) →
  single_source_shortest_path G1 s = single_source_shortest_path G2 s.
Proof.
  intros Hs Hadj. destruct (decide (s ∈ nodes G1)) as [H1|H1].
  - destruct (single_source_shortest_path_returns G1 s H1) as (R1 & -> & HR1).
    destruct (single_source_shortest_path_returns G2 s) as (R2 & -> & HR2);
      [tauto|].
    f_equal. apply set_eq. intros v. rewrite HR1, HR2. unfold connected.
    assert (rtc (adjacent G1) s v ↔ rtc (adjacent G2) s v) as Hrtc
      by (split; apply rtc_subrel; intros x y; apply Hadj).
    tauto.
  - rewrite !single_source_shortest_path_raises; tauto.
Qed.

Ltac py_unfold :=
  unfold mbind, M_bind, mret, M_ret, Py.bind, Py.ret, Py.raise,
    Py.of_result, Py.modify, Py.get, Py.put.

Section evaluation.
Context (fn : list node) (fl : list (node * node)) (server : node)
  (subs : gset node).

Lemma get_reachability_unfold ts :
  get_reachability fn fl server subs ts =
  (all ← Py.for_each ts (round fn fl server subs) ∅;
   Py.of_result (float_div (size all) (size subs))).
Proof. reflexivity. Qed.

Lemma evaluate_prune G :
  evaluate fn fl server subs (prune fn fl G) = evaluate fn fl server subs G.
Proof.
  unfold evaluate. rewrite prune_graph.
  rewrite (single_source_shortest_path_ext (prune fn fl (prune fn fl G))
             (prune fn fl G) server); [done| |].
  - unfold prune.
    repeat rewrite ?remove_nodes_from_nodes, ?remove_edges_from_nodes. tauto.
  - intros u v. rewrite adjacent_prune. unfold surviving.
    rewrite adjacent_prune. unfold surviving. tauto.
Qed.

Lemma round_run acc r h :
  round fn fl server subs acc r h =
  match h !! r with
  | None => (inl ReferenceError, h)
  | Some G =>
      (match evaluate fn fl server subs G with
       | inl e => inl e
       | inr reached => inr (acc ∪ reached)
       end, <[r := prune fn fl G]> h)
  end.
Proof.
  unfold round, mutate, deref, get_graph_attr, deref, evaluate. py_unfold.
  destruct (h !! r) as [G|] eqn:Hr; [|done].
  rewrite lookup_insert_eq, insert_insert_eq, lookup_insert_eq.
  fold (prune fn fl G).
  destruct (single_source_shortest_path (prune fn fl G) server); [done|].
  rewrite lookup_insert_eq, prune_graph. by destruct (graph G !! "heuristic").
Qed.

(** A heap whose objects were pruned already gives the same rounds. *)
Lemma accumulate_ext h1 h2 ts acc :
  (∀ r, r ∈ ts →
     evaluate fn fl server subs <$> h1 !! r = evaluate fn fl server subs <$> h2 !! r) →
  accumulate fn fl server subs h1 ts acc = accumulate fn fl server subs h2 ts acc.
Proof.
  revert acc. induction ts as [|r ts IH]; intros acc Hview; simpl; [done|].
  pose proof (Hview r ltac:(left)) as Hr.
  destruct (h1 !! r) as [G1|], (h2 !! r) as [G2|]; simplify_eq/=; [|done].
  rewrite Hr. destruct (evaluate fn fl server subs G2); [done|].
  apply IH. intros r' ?. apply Hview. by right.
Qed.

Lemma for_each_round_result ts acc h :
  (Py.for_each ts (round fn fl server subs) acc h).1 = accumulate fn fl server subs h ts acc.
Proof.
  revert acc h. induction ts as [|r ts IH]; intros acc h; simpl; [done|].
  unfold Py.bind. rewrite round_run.
  destruct (h !! r) as [G|] eqn:Hr; [|done].
  destruct (evaluate fn fl server subs G) as [e|U]; [done|].
  rewrite IH. apply accumulate_ext. intros r' _.
  destruct (decide (r' = r)) as [->|Hne].
  - rewrite lookup_insert_eq, Hr. simpl. by rewrite evaluate_prune.
  - by rewrite lookup_insert_ne.
Qed.

(** Objects outside the evaluated sequence are not touched. *)
Lemma for_each_round_frame ts acc h r :
  r ∉ ts → (Py.for_each ts (round fn fl server subs) acc h).2 !! r = h !! r.
Proof.
  revert acc h. induction ts as [|t ts IH]; intros acc h Hr; simpl; [done|].
  apply not_elem_of_cons in Hr as [Hne Hr].
  unfold Py.bind. rewrite round_run.
  destruct (h !! t) as [G|] eqn:Ht; [|done].
  destruct (evaluate fn fl server subs G) as [e|U]; simpl.
  - by rewrite lookup_insert_ne.
  - rewrite IH by done. by rewrite lookup_insert_ne.
Qed.

(** When a round returns, and what. *)
Lemma evaluate_returns G :
  server ∈ nodes G → server ∉ fn → is_Some (graph G !! "heuristic") →
  ∃ found, evaluate fn fl server subs G = inr found ∧
    ∀ v, v ∈ found ↔ v ∈ subs ∧ reachable_after_failures fn fl G server v.
Proof.
  intros Hs Hfn [tag Htag]. unfold evaluate.
  destruct (single_source_shortest_path_returns (prune fn fl G) server)
    as (R & -> & HR).
  { unfold prune. rewrite remove_nodes_from_nodes, remove_edges_from_nodes.
    done. }
  rewrite Htag. eexists. split; [done|]. intros v.
  by rewrite elem_of_intersection, HR, connected_prune.
Qed.

Lemma evaluate_inv G found :
  evaluate fn fl server subs G = inr found →
  server ∈ nodes G ∧ (server ∉ fn) ∧ is_Some (graph G !! "heuristic") ∧
  ∀ v, v ∈ found ↔ v ∈ subs ∧ reachable_after_failures fn fl G server v.
Proof.
  intros Hev.
  assert (server ∈ nodes G ∧ (server ∉ fn) ∧ is_Some (graph G !! "heuristic"))
    as (Hs & Hfn & Htag).
  { unfold evaluate, single_source_shortest_path in Hev.
    case_decide as Hin; [|done].
    unfold prune in Hin.
    rewrite remove_nodes_from_nodes, remove_edges_from_nodes in Hin.
    destruct (graph G !! "heuristic"); [|done]. naive_solver. }
  destruct (evaluate_returns G Hs Hfn Htag) as (found' & Hev' & Hfound).
  rewrite Hev in Hev'. by simplify_eq.
Qed.

Lemma evaluate_server_failed G :
  server ∈ fn → evaluate fn fl server subs G = inl KeyError.
Proof.
  intros Hfn. unfold evaluate.
  rewrite single_source_shortest_path_raises; [done|].
  unfold prune. rewrite remove_nodes_from_nodes. tauto.
Qed.

Lemma evaluate_subseteq G found :
  evaluate fn fl server subs G = inr found → found ⊆ subs.
Proof. intros Hev v Hv. by apply (evaluate_inv _ _ Hev) in Hv as [? _]. Qed.

(** ** The accumulated union *)

Lemma accumulate_returns h ts acc :
  (∀ r, r ∈ ts → ∃ G found,
     h !! r = Some G ∧ evaluate fn fl server subs G = inr found) →
  ∃ U, accumulate fn fl server subs h ts acc = inr U.
Proof.
  revert acc. induction ts as [|r ts IH]; intros acc Hall; simpl; [by eexists|].
  destruct (Hall r ltac:(left)) as (G & found & -> & ->).
  apply IH. intros r' ?. apply Hall. by right.
Qed.

Lemma accumulate_inv h ts acc U :
  accumulate fn fl server subs h ts acc = inr U →
  (∀ r, r ∈ ts → ∃ G found,
     h !! r = Some G ∧ evaluate fn fl server subs G = inr found) ∧
  (∀ v, v ∈ U ↔
     v ∈ acc ∨ ∃ r G found, r ∈ ts ∧ h !! r = Some G ∧
       evaluate fn fl server subs G = inr found ∧ v ∈ found).
Proof.
  revert acc. induction ts as [|r ts IH]; intros acc Hacc; simpl in Hacc.
  - simplify_eq. split; [by intros r ?%elem_of_nil|].
    intros v. split; [by left|]. intros [?|(r & ? & ? & ?%elem_of_nil & _)]; done.
  - destruct (h !! r) as [G|] eqn:Hr; [|done].
    destruct (evaluate fn fl server subs G) as [e|found] eqn:Hev; [done|].
    apply IH in Hacc as [Hall HU]. split.
    + intros r' [->|?]%elem_of_cons; [by eauto|by apply Hall].
    + intros v. rewrite HU, elem_of_union. split.
      * intros [[?|?]|(r' & G' & f' & ? & ? & ? & ?)]; [by left| |].
        -- right. exists r, G, found. repeat split; try done. by left.
        -- right. exists r', G', f'. repeat split; try done. by right.
      * intros [?|(r' & G' & f' & [->|?]%elem_of_cons & ? & ? & ?)].
        -- by left; left.
        -- assert (found = f') as -> by congruence. by left; right.
        -- right. by exists r', G', f'.
Qed.

(** Whether the loop returns, and the union it returns, do not depend on
    the order of the graphs. *)
Lemma accumulate_Permutation h ts ts' acc :
  ts ≡ₚ ts' →
  returned (accumulate fn fl server subs h ts acc) =
  returned (accumulate fn fl server subs h ts' acc).
Proof.
  intros Hperm. revert acc.
  induction Hperm as [|r ts ts' _ IH|r1 r2 ts|ts1 ts2 ts3 _ IH1 _ IH2];
    intros acc; simpl.
  - done.
  - destruct (h !! r) as [G|]; [|done].
    by destruct (evaluate fn fl server subs G).
  - destruct (h !! r1) as [G1|], (h !! r2) as [G2|]; try done.
    + destruct (evaluate fn fl server subs G1) as [?|U1],
        (evaluate fn fl server subs G2) as [?|U2]; try done.
      by rewrite <-!(assoc_L (∪)), (comm_L (∪) U1 U2).
    + by destruct (evaluate fn fl server subs G1).
    + by destruct (evaluate fn fl server subs G2).
  - by rewrite IH1.
Qed.

Lemma get_reachability_result ts h :
  (get_reachability fn fl server subs ts h).1 =
  match accumulate fn fl server subs h ts ∅ with
  | inl e => inl e
  | inr all => float_div (size all) (size subs)
  end.
Proof.
  rewrite get_reachability_unfold. py_unfold.
  pose proof (for_each_round_result ts ∅ h) as Hres.
  destruct (Py.for_each ts (round fn fl server subs) ∅ h) as [[e|all] h']; simpl in *;
    by rewrite <-Hres.
Qed.

Lemma get_reachability_frame ts h r :
  r ∉ ts → (get_reachability fn fl server subs ts h).2 !! r = h !! r.
Proof.
  intros Hr. rewrite get_reachability_unfold. py_unfold.
  pose proof (for_each_round_frame ts ∅ h r Hr) as Hframe.
  by destruct (Py.for_each ts (round fn fl server subs) ∅ h) as [[e|all] h'].
Qed.

Lemma get_reachability_graph_attr ts h r :
  graph <$> (get_reachability fn fl server subs ts h).2 !! r = graph <$> h !! r.
Proof.
  rewrite get_reachability_unfold. py_unfold.
  assert (∀ acc, graph <$> (Py.for_each ts (round fn fl server subs) acc h).2 !! r = graph <$> h !! r)
    as Hloop.
  { revert h. induction ts as [|t ts IH]; intros h acc; simpl; [done|].
    unfold Py.bind. rewrite round_run.
    destruct (h !! t) as [G|] eqn:Ht; [|done].
    assert (graph <$> <[t:=prune fn fl G]> h !! r = graph <$> h !! r) as Hstep.
    { destruct (decide (r = t)) as [->|Hne].
      - by rewrite lookup_insert_eq, Ht; simpl; rewrite prune_graph.
      - by rewrite lookup_insert_ne. }
    destruct (evaluate fn fl server subs G) as [e|U]; simpl; [done|].
    by rewrite IH. }
  specialize (Hloop ∅).
  by destruct (Py.for_each ts (round fn fl server subs) ∅ h) as [[e|all] h'].
Qed.

(** The evaluation of a single graph. *)
Lemma get_reachability_singleton r G h :
  h !! r = Some G →
  get_reachability fn fl server subs [r] h =
  (match evaluate fn fl server subs G with
   | inl e => inl e
   | inr found => float_div (size found) (size subs)
   end, <[r := prune fn fl G]> h).
Proof.
  intros Hr. rewrite get_reachability_unfold. py_unfold. simpl.
  unfold Py.bind. rewrite round_run, Hr.
  destruct (evaluate fn fl server subs G) as [e|found]; [done|].
  unfold Py.ret. by rewrite (left_id_L ∅ (∪)).
Qed.

End evaluation.

(** ** One trial, step by step *)

Lemma run_experiment_dangling topo fn fl server subscribers trees (h : heap) :
  h !! topo = None →
  run_experiment topo fn fl server subscribers trees h = (inl ReferenceError, h).
Proof.
  intros Ht. unfold run_experiment, copy, deref. py_unfold. by rewrite Ht.
Qed.

Lemma run_experiment_run topo fn fl server subscribers trees (h : heap) G :
  h !! topo = Some G →
  let subs : gset node := list_to_set subscribers in
  let c := fresh (dom h) in
  run_experiment topo fn fl server subscribers trees h =
  let '(ro, h3) := get_reachability fn fl server subs [c] (<[c := oracle_copy G]> h) in
  match ro with
  | inl e => (inl e, h3)
  | inr qo =>
      let '(rh, h4) := get_reachability fn fl server subs trees h3 in
      match rh with
      | inl e => (inl e, h4)
      | inr qh =>
          match trees !! 0 with
          | None => (inl IndexError, h4)
          | Some t0 =>
              match h4 !! t0 with
              | None => (inl ReferenceError, h4)
              | Some T0 =>
                  match graph T0 !! "heuristic" with
                  | None => (inl KeyError, h4)
                  | Some heuristic =>
                      (inr (<[heuristic := PyFloat qh]> {["oracle" := PyFloat qo]}), h4)
                  end
              end
          end
      end
  end.
Proof.
  intros Ht subs c.
  unfold run_experiment, copy, new_object, set_graph_attr, mutate, deref.
  py_unfold. rewrite Ht. fold c. rewrite lookup_insert_eq, insert_insert_eq.
  fold (oracle_copy G). fold subs.
  pose proof (get_reachability_graph_attr fn fl server subs [c]
                (<[c := oracle_copy G]> h) c) as Htag.
  rewrite lookup_insert_eq in Htag.
  destruct (get_reachability fn fl server subs [c] (<[c:=oracle_copy G]> h))
    as [[e|qo] h3]; [done|].
  unfold get_graph_attr at 1, deref. py_unfold. simpl in Htag.
  destruct (h3 !! c) as [Gc|]; [|done]. simpl in Htag.
  injection Htag as ->. simpl. rewrite lookup_insert_eq.
  destruct (get_reachability fn fl server subs trees h3) as [[e|qh] h4]; [done|].
  destruct (trees !! 0) as [t0|]; simpl; [|done].
  unfold get_graph_attr, deref. py_unfold.
  destruct (h4 !! t0) as [T0|]; [|done].
  by destruct (graph T0 !! "heuristic").
Qed.

Lemma fraction_le a b n : a ≤ b → (fraction a n ≤ fraction b n)%Qc.
Proof.
  intros Hab. unfold fraction, Qcle. simpl. rewrite !Qred_correct.
  unfold Qle. simpl. apply Z.mul_le_mono_nonneg_r; lia.
Qed.

Lemma fraction_zero n : fraction 0 n = 0%Qc.
Proof. apply Qc_is_canon. unfold fraction. simpl. by rewrite Qred_correct. Qed.

Lemma float_div_inv a b q : float_div a b = inr q → b ≠ 0 ∧ q = fraction a b.
Proof. destruct b; simpl; [done|]. intros [= <-]. done. Qed.

Lemma reachable_after_failures_subgraph fn fl T G s v :
  subgraph T G →
  reachable_after_failures fn fl T s v → reachable_after_failures fn fl G s v.
Proof.
  intros [Hnodes Hadj] (Hs & Hfn & Hrtc). repeat split; [by apply Hnodes|done|].
  eapply rtc_subrel; [|done]. intros x y (? & ? & ? & ? & ?).
  split; [by apply Hadj|done].
Qed.

(** A reference that is live is not the address of the next object. *)
Lemma get_reachability_fresh fn fl server subs ts (h : heap) G :
  (∀ t, t ∈ ts → is_Some (h !! t)) →
  (get_reachability fn fl server subs ts (<[fresh (dom h) := G]> h)).1 =
  (get_reachability fn fl server subs ts h).1.
Proof.
  intros Hlive. rewrite !get_reachability_result.
  rewrite (accumulate_ext _ _ _ _ (<[fresh (dom h) := G]> h) h); [done|].
  intros r Hr. rewrite lookup_insert_ne; [done|].
  intros <-. apply Hlive, elem_of_dom in Hr. by apply is_fresh in Hr.
Qed.

(** * The reachability evaluator *)

(** C1, as amended: for every non-empty subscriber set and every sequence
    of candidate graphs that carry a heuristic tag and keep the server
    once the failed nodes are removed, [get_reachability] returns the size
    of the union, over the candidate graphs, of the subscribers reachable
    from the server in that graph after the failed links and the failed
    nodes are removed, divided by the number of subscribers. *)
Theorem get_reachability_union fn fl server (subs : gset node) ts (h : heap) :
  subs ≠ ∅ →
  (∀ r, r ∈ ts → ∃ G, h !! r = Some G ∧ is_Some (graph G !! "heuristic") ∧
                      server ∈ nodes G ∧ server ∉ fn) →
  returns_served_fraction fn fl server subs ts h.
Proof.
  intros Hsubs Hok.
  assert (∀ r, r ∈ ts → ∃ G found,
            h !! r = Some G ∧ evaluate fn fl server subs G = inr found) as Hev.
  { intros r Hr. destruct (Hok r Hr) as (G & HG & Htag & Hs & Hfn).
    destruct (evaluate_returns fn fl server subs G Hs Hfn Htag) as (found & ? & _).
    by exists G, found. }
  destruct (accumulate_returns fn fl server subs h ts ∅ Hev) as [U HU].
  exists U. split.
  - intros v. apply accumulate_inv in HU as [_ HU]. rewrite HU. unfold served.
    split.
    + intros [?%elem_of_empty|(r & G & found & Hr & HG & Hfound & Hv)]; [done|].
      apply evaluate_inv in Hfound as (_ & _ & _ & Hfound).
      apply Hfound in Hv as [? ?]. split; [done|]. by exists r, G.
    + intros (Hv & r & G & Hr & HG & Hreach). right.
      destruct (Hev r Hr) as (G' & found & HG' & Hfound).
      assert (G' = G) as -> by congruence.
      exists r, G, found. repeat split; try done.
      apply evaluate_inv in Hfound as (_ & _ & _ & Hfound). by apply Hfound.
  - rewrite get_reachability_result, HU.
    destruct (size subs) eqn:Hsize; [|done].
    by apply size_empty_iff, leibniz_equiv in Hsize.
Qed.

(** On the path A - B - C - D with the link B - C down, one of the two
    subscribers B and D is served. *)
Lemma get_reachability_union_witness :
  returns_served_fraction [] [("B", "C")] "A" {[ "B"; "D" ]} [0; 1] path_heap.
Proof.
  apply get_reachability_union.
  - by vm_compute.
  - intros r Hr. exists (path_graph (if decide (r = 0) then "topo" else "steiner")).
    apply elem_of_cons in Hr as [->|Hr]; [|apply list_elem_of_singleton in Hr as ->].
    + split; [by vm_compute|]. split; [by eexists|].
      split; [by vm_compute|by intros ?%elem_of_nil].
    + split; [by vm_compute|]. split; [by eexists|].
      split; [by vm_compute|by intros ?%elem_of_nil].
Defined.

(** C1, as stated, fails on a candidate graph that carries no heuristic
    tag, and on one the server is no node of.  On the campus ring, without
    failures, D is reachable from A, yet no fraction is returned: reading
    the tag for the log line raises.  On the path, no node is reachable
    from a server E, yet the fraction 0 is not returned: the search for E
    raises. *)
Lemma get_reachability_union_counterexample :
  ({[ "D" ]} : gset node) ≠ ∅ ∧
  ((get_reachability [] [] "A" {[ "D" ]} [0] {[ 0 := campus ]}).1 = inl KeyError ∧
   ¬ returns_served_fraction [] [] "A" {[ "D" ]} [0] {[ 0 := campus ]}) ∧
  ((get_reachability [] [] "E" {[ "D" ]} [1] path_heap).1 = inl KeyError ∧
   ¬ returns_served_fraction [] [] "E" {[ "D" ]} [1] path_heap).
Proof.
  assert ((get_reachability [] [] "A" {[ "D" ]} [0] {[ 0 := campus ]}).1
          = inl KeyError) as Hrun by (by vm_compute).
  assert ((get_reachability [] [] "E" {[ "D" ]} [1] path_heap).1
          = inl KeyError) as Hrun' by (by vm_compute).
  split; [by vm_compute|]. split; (split; [done|]).
  - intros (U & _ & HU). by rewrite Hrun in HU.
  - intros (U & _ & HU). by rewrite Hrun' in HU.
Qed.

(** Nor is a fraction returned when the server has failed: the search
    for the server raises. *)
Lemma get_reachability_server_failed :
  (get_reachability ["A"] [] "A" {[ "D" ]} [1] path_heap).1 = inl KeyError.
Proof. by vm_compute. Qed.

(** C5: with an empty subscriber set the evaluator raises instead of
    returning a fraction. *)
Theorem get_reachability_no_subscribers fn fl server ts (h : heap) :
  is_error (get_reachability fn fl server ∅ ts h).1.
Proof.
  rewrite get_reachability_result.
  destruct (accumulate fn fl server ∅ h ts ∅); [done|].
  by rewrite size_empty.
Qed.

(** C9: the outcome of [get_reachability] (the fraction, or the absence
    of one) is the same for every order of the candidate graphs. *)
Theorem get_reachability_Permutation fn fl server subs ts ts' (h : heap) :
  ts ≡ₚ ts' →
  returned (get_reachability fn fl server subs ts h).1 =
  returned (get_reachability fn fl server subs ts' h).1.
Proof.
  intros Hperm. rewrite !get_reachability_result.
  pose proof (accumulate_Permutation fn fl server subs h ts ts' ∅ Hperm) as Hacc.
  destruct (accumulate fn fl server subs h ts ∅),
    (accumulate fn fl server subs h ts' ∅); simplify_eq/=; done.
Qed.

Lemma get_reachability_Permutation_witness :
  returned (get_reachability [] [("B", "C")] "A" {[ "B"; "D" ]} [0; 1] path_heap).1 =
  returned (get_reachability [] [("B", "C")] "A" {[ "B"; "D" ]} [1; 0] path_heap).1.
Proof. apply get_reachability_Permutation. apply Permutation_swap. Defined.

(** * One trial *)

(** C3 (the code departs from it): when the server is among the failed
    nodes, [run_experiment] returns no fraction at all, neither 0.0 nor
    any other: the evaluation of the oracle copy raises. *)
Theorem run_experiment_server_failed topo fn fl server subscribers trees (h : heap) :
  server ∈ fn →
  is_error (run_experiment topo fn fl server subscribers trees h).1.
Proof.
  intros Hfn. destruct (h !! topo) as [G|] eqn:Ht.
  - rewrite (run_experiment_run _ _ _ _ _ _ _ G Ht). simpl.
    rewrite (get_reachability_singleton _ _ _ _ _ (oracle_copy G))
      by apply lookup_insert_eq.
    by rewrite evaluate_server_failed.
  - by rewrite run_experiment_dangling.
Qed.

Lemma run_experiment_server_failed_witness :
  is_error (run_experiment 0 ["A"] [] "A" ["D"] [1] path_heap).1.
Proof. apply run_experiment_server_failed. by left. Defined.

(** The same trial, evaluated: the exception is a [KeyError]. *)
Lemma run_experiment_server_failed_KeyError :
  (run_experiment 0 ["A"] [] "A" ["D"] [1] path_heap).1 = inl KeyError.
Proof. by vm_compute. Qed.

(** C7: [run_experiment] leaves the graph object of the driver's topology
    as it found it, provided none of the trees is that very object: the
    failed nodes and links are removed from the copy and from the trees. *)
Theorem run_experiment_preserves_topology topo fn fl server subscribers trees
    (h : heap) :
  topo ∉ trees →
  (run_experiment topo fn fl server subscribers trees h).2 !! topo = h !! topo.
Proof.
  intros Hnot. destruct (h !! topo) as [G|] eqn:Ht.
  - rewrite (run_experiment_run _ _ _ _ _ _ _ G Ht). simpl.
    set (c := fresh (dom h)).
    assert (c ≠ topo) as Hc.
    { intros Heq. apply (is_fresh (dom h)). fold c. rewrite Heq.
      by apply elem_of_dom. }
    pose proof (get_reachability_frame fn fl server (list_to_set subscribers)
                  [c] (<[c := oracle_copy G]> h) topo) as H3.
    rewrite lookup_insert_ne, Ht in H3 by done.
    destruct (get_reachability fn fl server (list_to_set subscribers) [c]
                (<[c := oracle_copy G]> h)) as [[e|qo] h3]; simpl in H3.
    { apply H3. by intros ->%list_elem_of_singleton. }
    pose proof (get_reachability_frame fn fl server (list_to_set subscribers)
                  trees h3 topo Hnot) as H4.
    rewrite H3 in H4 by (by intros ->%list_elem_of_singleton).
    destruct (get_reachability fn fl server (list_to_set subscribers) trees h3)
      as [[e|qh] h4]; simpl in H4; [done|].
    destruct (trees !! 0) as [t0|]; [|done].
    destruct (h4 !! t0) as [T0|]; [|done].
    by destruct (graph T0 !! "heuristic").
  - by rewrite run_experiment_dangling.
Qed.

Lemma run_experiment_preserves_topology_witness :
  (run_experiment 0 ["C"] [("A", "B")] "A" ["D"] [1] path_heap).2 !! 0
  = path_heap !! 0.
Proof.
  apply run_experiment_preserves_topology.
  by intros ?%list_elem_of_singleton.
Defined.

Lemma run_experiment_inv topo fn fl server subscribers trees (h h' : heap) result :
  (∀ t, t ∈ trees → is_Some (h !! t)) →
  run_experiment topo fn fl server subscribers trees h = (inr result, h') →
  let subs : gset node := list_to_set subscribers in
  ∃ G Uo qh heuristic,
    h !! topo = Some G ∧
    evaluate fn fl server subs (oracle_copy G) = inr Uo ∧
    subs ≠ ∅ ∧
    (get_reachability fn fl server subs trees h).1 = inr qh ∧
    heuristic_of trees h = Some heuristic ∧
    result = <[heuristic := PyFloat qh]>
               {["oracle" := PyFloat (fraction (size Uo) (size subs))]}.
Proof.
  intros Hlive Hrun subs. destruct (h !! topo) as [G|] eqn:Ht;
    [|by rewrite run_experiment_dangling in Hrun].
  rewrite (run_experiment_run _ _ _ _ _ _ _ G Ht) in Hrun. simpl in Hrun.
  fold subs in Hrun. set (c := fresh (dom h)) in *.
  rewrite (get_reachability_singleton _ _ _ _ _ (oracle_copy G)) in Hrun
    by apply lookup_insert_eq.
  rewrite insert_insert_eq in Hrun.
  destruct (evaluate fn fl server subs (oracle_copy G)) as [e|Uo] eqn:HUo;
    [done|].
  destruct (float_div (size Uo) (size subs)) as [e|qo] eqn:Hqo; [done|].
  apply float_div_inv in Hqo as [Hsize ->].
  pose proof (get_reachability_fresh fn fl server subs trees h
                (prune fn fl (oracle_copy G)) Hlive) as Hfst.
  pose proof (get_reachability_graph_attr fn fl server subs trees
                (<[c := prune fn fl (oracle_copy G)]> h)) as Htags.
  fold c in Hfst.
  destruct (get_reachability fn fl server subs trees
              (<[c := prune fn fl (oracle_copy G)]> h)) as [[e|qh] h4];
    [done|]. simpl in Hfst, Htags.
  destruct (trees !! 0) as [t0|] eqn:Ht0; [|done].
  specialize (Htags t0).
  assert (t0 ≠ c) as Hne.
  { intros ->. apply (is_fresh (dom h)). fold c. apply elem_of_dom, Hlive.
    by eapply list_elem_of_lookup_2. }
  rewrite lookup_insert_ne in Htags by done.
  destruct (h4 !! t0) as [T0|]; [|done].
  destruct (graph T0 !! "heuristic") as [heuristic|] eqn:Hh; [|done].
  injection Hrun as <- <-.
  exists G, Uo, qh, heuristic. repeat split; try done.
  - intros Hempty. apply Hsize. by rewrite Hempty, size_empty.
  - unfold heuristic_of. rewrite Ht0. simpl.
    destruct (h !! t0) as [T|]; simplify_eq/=. by rewrite <-Htags.
Qed.

(** A trial returns a result when the topology and every tree hold the
    server, the server has not failed, the trees carry a tag, and there is
    at least one subscriber and one tree. *)
Lemma run_experiment_returns topo fn fl server subscribers trees (h : heap) G :
  h !! topo = Some G → server ∈ nodes G → server ∉ fn →
  subscribers ≠ [] → trees ≠ [] →
  (∀ t, t ∈ trees → ∃ T, h !! t = Some T ∧
     is_Some (graph T !! "heuristic") ∧ server ∈ nodes T) →
  ∃ result h',
    run_experiment topo fn fl server subscribers trees h = (inr result, h').
Proof.
  intros Ht Hs Hfn Hsubs Htrees Hok.
  rewrite (run_experiment_run _ _ _ _ _ _ _ G Ht). simpl.
  set (subs := list_to_set subscribers : gset node).
  set (c := fresh (dom h)).
  assert (size subs ≠ 0) as Hsize.
  { rewrite size_empty_iff. destruct subscribers as [|s0 ?]; [done|].
    subst subs. set_solver. }
  rewrite (get_reachability_singleton _ _ _ _ _ (oracle_copy G))
    by apply lookup_insert_eq.
  destruct (evaluate_returns fn fl server subs (oracle_copy G) Hs Hfn)
    as (Uo & -> & _).
  { simpl. rewrite lookup_insert_eq. by eexists. }
  destruct (size subs) as [|n] eqn:Hn; [done|]. simpl.
  rewrite insert_insert_eq.
  assert (∀ t, t ∈ trees → is_Some (h !! t)) as Hlive.
  { intros t Hin. destruct (Hok t Hin) as (T & -> & _). by eexists. }
  pose proof (get_reachability_fresh fn fl server subs trees h
                (prune fn fl (oracle_copy G)) Hlive) as Hfst.
  pose proof (get_reachability_graph_attr fn fl server subs trees
                (<[c := prune fn fl (oracle_copy G)]> h)) as Htags.
  fold c in Hfst.
  rewrite (get_reachability_result fn fl server subs trees h) in Hfst.
  destruct (accumulate_returns fn fl server subs h trees ∅) as [Uh HUh].
  { intros t Hin. destruct (Hok t Hin) as (T & HT & Htag & HsT).
    destruct (evaluate_returns fn fl server subs T HsT Hfn Htag) as (U & ? & _).
    by exists T, U. }
  rewrite HUh, Hn in Hfst. simpl in Hfst.
  destruct (get_reachability fn fl server subs trees
              (<[c := prune fn fl (oracle_copy G)]> h)) as [[e|qh] h4];
    [done|]. simpl in Htags.
  destruct trees as [|t0 trees]; [done|]. simpl.
  destruct (Hok t0 ltac:(left)) as (T0 & HT0 & [tag Htag] & _).
  specialize (Htags t0).
  rewrite lookup_insert_ne, HT0 in Htags.
  - destruct (h4 !! t0) as [T0'|]; [|done]. simpl in Htags.
    injection Htags as ->. rewrite Htag. by eexists _, _.
  - intros Heq. apply (is_fresh (dom h)). fold c. rewrite Heq.
    by apply elem_of_dom.
Qed.

(** The subscribers the trees serve are served by the topology. *)
Lemma trees_served_by_topology fn fl server subs trees (h : heap) G Uo Uh :
  (∀ t, t ∈ trees → ∃ T, h !! t = Some T ∧ subgraph T G) →
  evaluate fn fl server subs (oracle_copy G) = inr Uo →
  accumulate fn fl server subs h trees ∅ = inr Uh →
  Uh ⊆ Uo.
Proof.
  intros Hsub HUo HUh v Hv.
  apply accumulate_inv in HUh as [_ HUh].
  apply HUh in Hv as [?%elem_of_empty|(t & T & found & Ht & HT & Hfound & Hv)];
    [done|].
  destruct (Hsub t Ht) as (T' & HT' & Hsg).
  assert (T' = T) as -> by congruence.
  apply evaluate_inv in Hfound as (_ & _ & _ & Hfound).
  apply Hfound in Hv as [Hv Hreach].
  apply evaluate_inv in HUo as (_ & _ & _ & HUo). apply HUo. split; [done|].
  by apply (reachable_after_failures_subgraph fn fl T G).
Qed.

(** C2: in a trial whose trees are subgraphs of the full topology, the
    fraction filed under "oracle" is at least the fraction filed under the
    heuristic of the trees; and the fraction computed for the tagged copy
    of the full topology is at least the one computed for the trees. *)
Theorem oracle_bounds_heuristic topo fn fl server subscribers trees
    (h h' : heap) G result :
  h !! topo = Some G →
  (∀ t, t ∈ trees → ∃ T, h !! t = Some T ∧ subgraph T G) →
  run_experiment topo fn fl server subscribers trees h = (inr result, h') →
  let subs : gset node := list_to_set subscribers in
  let c := fresh (dom h) in
  ∃ heuristic q_copy q_trees q_oracle,
    (get_reachability fn fl server subs [c] (<[c := oracle_copy G]> h)).1
      = inr q_copy ∧
    (get_reachability fn fl server subs trees h).1 = inr q_trees ∧
    heuristic_of trees h = Some heuristic ∧
    result !! "oracle" = Some (PyFloat q_oracle) ∧
    result !! heuristic = Some (PyFloat q_trees) ∧
    (q_trees ≤ q_oracle)%Qc ∧ (q_trees ≤ q_copy)%Qc.
Proof.
  intros Ht Hsub Hrun subs c.
  apply run_experiment_inv in Hrun
    as (G' & Uo & qh & heuristic & HG' & HUo & Hsubs & Hqh & Hheur & ->);
    [|intros t Htr; destruct (Hsub t Htr) as (T & -> & _); by eexists].
  assert (G' = G) as -> by congruence. fold subs in HUo, Hsubs, Hqh.
  assert (qh ≤ fraction (size Uo) (size subs))%Qc as Hle.
  { rewrite get_reachability_result in Hqh.
    destruct (accumulate fn fl server subs h trees ∅) as [e|Uh] eqn:HUh; [done|].
    apply float_div_inv in Hqh as [_ ->]. apply fraction_le, subseteq_size.
    by eapply trees_served_by_topology. }
  assert ((get_reachability fn fl server subs [c] (<[c := oracle_copy G]> h)).1
          = inr (fraction (size Uo) (size subs))) as Hcopy.
  { rewrite (get_reachability_singleton _ _ _ _ _ (oracle_copy G))
      by apply lookup_insert_eq.
    simpl. rewrite HUo. destruct (size subs) eqn:Hsize; [|done].
    by apply size_empty_iff, leibniz_equiv in Hsize. }
  destruct (decide (heuristic = "oracle")) as [->|Hne].
  - exists "oracle", (fraction (size Uo) (size subs)), qh, qh.
    rewrite lookup_insert_eq. repeat split; done.
  - exists heuristic, (fraction (size Uo) (size subs)), qh,
      (fraction (size Uo) (size subs)).
    rewrite lookup_insert_eq, lookup_insert_ne, lookup_singleton_eq by done.
    repeat split; done.
Qed.

(** C10: when the trees carry the reserved tag "oracle", the result of the
    trial has the single key "oracle", and its value is the reachability
    of the trees: the score of the full topology is overwritten. *)
Theorem run_experiment_oracle_heuristic topo fn fl server subscribers trees
    (h h' : heap) result :
  (∀ t, t ∈ trees → is_Some (h !! t)) →
  heuristic_of trees h = Some "oracle" →
  run_experiment topo fn fl server subscribers trees h = (inr result, h') →
  ∃ q, (get_reachability fn fl server (list_to_set subscribers) trees h).1 = inr q ∧
       result = {[ "oracle" := PyFloat q ]}.
Proof.
  intros Hlive Htag Hrun.
  apply run_experiment_inv in Hrun
    as (G & Uo & qh & heuristic & _ & _ & _ & Hqh & Hheur & ->); [|done].
  assert (heuristic = "oracle") as -> by congruence.
  exists qh. split; [done|]. apply insert_singleton_eq.
Qed.

(** Without a tree [run_experiment] has no first tree to read the
    heuristic from, and raises. *)
Lemma run_experiment_no_trees topo fn fl server subscribers (h : heap) :
  is_error (run_experiment topo fn fl server subscribers [] h).1.
Proof.
  destruct (h !! topo) as [G|] eqn:Ht.
  - rewrite (run_experiment_run _ _ _ _ _ _ _ G Ht). simpl.
    destruct (get_reachability fn fl server (list_to_set subscribers)
                [fresh (dom h)] (<[fresh (dom h) := oracle_copy G]> h))
      as [[e|qo] h3]; [done|].
    by destruct (float_div _ _).
  - by rewrite run_experiment_dangling.
Qed.

Lemma path_subgraph_ring tag tag' : subgraph (path_graph tag) (ring_graph tag').
Proof.
  split; [done|]. intros u v (Hu & Hv & Hl). repeat split; [done..|].
  unfold linked in *. simpl in *. set_solver.
Qed.

(** The ring with the link B - C down: the topology still serves B and D,
    the path serves B only. *)
Lemma oracle_bounds_heuristic_witness :
  ∃ heuristic q_copy q_trees q_oracle,
    (get_reachability [] [("B", "C")] "A" (list_to_set ["B"; "D"])
       [fresh (dom (ring_heap "steiner"))]
       (<[fresh (dom (ring_heap "steiner")) := oracle_copy (ring_graph "topo")]>
          (ring_heap "steiner"))).1 = inr q_copy ∧
    (get_reachability [] [("B", "C")] "A" (list_to_set ["B"; "D"]) [1]
       (ring_heap "steiner")).1 = inr q_trees ∧
    heuristic_of [1] (ring_heap "steiner") = Some heuristic ∧
    (<["steiner" := PyFloat (fraction 1 2)]> {["oracle" := PyFloat (fraction 2 2)]}
       : gmap string pyval) !! "oracle" = Some (PyFloat q_oracle) ∧
    (<["steiner" := PyFloat (fraction 1 2)]> {["oracle" := PyFloat (fraction 2 2)]}
       : gmap string pyval) !! heuristic = Some (PyFloat q_trees) ∧
    (q_trees ≤ q_oracle)%Qc ∧ (q_trees ≤ q_copy)%Qc.
Proof.
  apply (oracle_bounds_heuristic 0 [] [("B", "C")] "A" ["B"; "D"] [1]
           (ring_heap "steiner")
           (run_experiment 0 [] [("B", "C")] "A" ["B"; "D"] [1]
              (ring_heap "steiner")).2
           (ring_graph "topo")).
  - by vm_compute.
  - intros t ->%list_elem_of_singleton. exists (path_graph "steiner").
    split; [by vm_compute|apply path_subgraph_ring].
  - by vm_compute.
Defined.

Lemma run_experiment_oracle_heuristic_witness :
  ∃ q, (get_reachability [] [("B", "C")] "A" (list_to_set ["B"; "D"]) [1]
          (ring_heap "oracle")).1 = inr q ∧
       ({[ "oracle" := PyFloat (fraction 1 2) ]} : gmap string pyval)
       = {[ "oracle" := PyFloat q ]}.
Proof.
  apply (run_experiment_oracle_heuristic 0 [] [("B", "C")] "A" ["B"; "D"] [1]
           (ring_heap "oracle")
           (run_experiment 0 [] [("B", "C")] "A" ["B"; "D"] [1]
              (ring_heap "oracle")).2).
  - intros t ->%list_elem_of_singleton. by eexists.
  - by vm_compute.
  - by vm_compute.
Defined.

(** * The driver *)

Ltac world_unfold :=
  unfold on_objects, Py.zoom, set_objects, set_self_random, set_module_random,
    set_failure_model, set_results, set_files, set_logging.

Section driver.
Context {rng fm : Type} `{!RandomSource rng, !FailureModel fm rng,
  !TopologyProvider rng}.
Implicit Types (w : world rng fm) (self : experiment).

(** The loop stops at the first trial that raises. *)
Lemma for_each_trials_cons self r rs w :
  Py.for_each (r :: rs) (λ _ r, trial self r) tt w =
  match trial self r w with
  | (inr _, w') => Py.for_each rs (λ _ r, trial self r) tt w'
  | (inl e, w') => (inl e, w')
  end.
Proof.
  simpl. unfold Py.bind.
  by destruct (trial self r w) as [[e|[]] w'].
Qed.

Lemma range_pos n : (0 < n)%Z → ∃ rs, range n = 0%Z :: rs.
Proof.
  intros Hn. unfold range. destruct (Z.to_nat n) as [|k] eqn:Hk; [lia|].
  simpl. by eexists.
Qed.

(** [run_all_experiments] when the first trial raises: nothing is
    written, and the state is the one the trial left. *)
Lemma run_all_experiments_first_raises self w e w' :
  (0 < nruns self)%Z →
  trial self 0%Z w = (inl e, w') →
  run_all_experiments self w = (inl e, w').
Proof.
  intros Hn Htrial. unfold run_all_experiments.
  destruct (range_pos _ Hn) as [rs ->]. py_unfold.
  by rewrite for_each_trials_cons, Htrial.
Qed.

(** The sampling steps of a trial that cannot draw its subscribers or its
    server. *)
Lemma trial_cannot_sample self r w G :
  objects w !! topo self = Some G →
  (Z.of_nat (length (get_hosts G)) < nsubscribers self)%Z ∨ get_servers G = [] →
  ∃ e w', trial self r w = (inl e, w') ∧
    e = (if decide (0 ≤ nsubscribers self ≤ Z.of_nat (length (get_hosts G)))%Z
         then IndexError else ValueError) ∧
    objects w' = objects w ∧ module_random w' = module_random w ∧
    failure_model w' = failure_model w ∧ results w' = results w ∧
    files w' = files w.
Proof.
  intros HG Hbad. unfold trial, choose_subscribers, choose_server, sample, choice, deref.
  world_unfold. py_unfold. rewrite HG. simpl.
  case_decide as Hk.
  - destruct Hbad as [?|Hservers]; [lia|].
    destruct (draw_sample (self_random w) (get_hosts G)
                (Z.to_nat (nsubscribers self))) as [chosen g'] eqn:Hdraw.
    simpl. rewrite HG, Hservers. simpl. by eexists _, _.
  - simpl. by eexists _, _.
Qed.

(** C6, as amended: when at least one trial is requested and
    [nsubscribers] exceeds the number of hosts (or there is no server),
    [run_all_experiments] raises while the first trial samples, before the
    failure model or the tree heuristic is called: the results list is as
    it was and nothing is written to the output file. *)
Theorem run_all_experiments_cannot_sample self w G :
  (0 < nruns self)%Z →
  objects w !! topo self = Some G →
  (Z.of_nat (length (get_hosts G)) < nsubscribers self)%Z ∨ get_servers G = [] →
  let out := run_all_experiments self w in
  is_error out.1 ∧
  results out.2 = results w ∧ files out.2 = files w ∧
  objects out.2 = objects w ∧ failure_model out.2 = failure_model w ∧
  module_random out.2 = module_random w.
Proof.
  intros Hn HG Hbad.
  destruct (trial_cannot_sample self 0%Z w G HG Hbad)
    as (e & w' & Htrial & _ & ? & ? & ? & ? & ?).
  simpl. rewrite (run_all_experiments_first_raises _ _ _ _ Hn Htrial). done.
Qed.

(** ** What a trial leaves of the results and of the files *)

Lemma keeps_output_ret {A} (a : A) : keeps_output (rng:=rng) (fm:=fm) (Py.ret a).
Proof. by intros w. Qed.

Lemma keeps_output_raise {A} e : keeps_output (rng:=rng) (fm:=fm) (A:=A) (Py.raise e).
Proof. by intros w. Qed.

Lemma keeps_output_of_result {A} (r : result A) :
  keeps_output (rng:=rng) (fm:=fm) (Py.of_result r).
Proof. by intros w. Qed.

Lemma keeps_output_bind {A B} (m : Py.M (world rng fm) A)
    (k : A → Py.M (world rng fm) B) :
  keeps_output m → (∀ a, keeps_output (k a)) → keeps_output (m ≫= k).
Proof.
  intros Hm Hk w. py_unfold. specialize (Hm w).
  destruct (m w) as [[e|a] w1]; [done|].
  destruct (Hk a w1) as [-> ->]. done.
Qed.

Lemma keeps_output_zoom {S A} (proj : world rng fm → S)
    (upd : S → world rng fm → world rng fm) (m : Py.M S A) :
  (∀ s w, results (upd s w) = results w ∧ files (upd s w) = files w) →
  keeps_output (Py.zoom proj upd m).
Proof.
  intros Hupd w. unfold Py.zoom. destruct (m (proj w)) as [r s']. apply Hupd.
Qed.

Lemma keeps_output_on_objects {A} (m : Py.M (gmap nat Graph) A) :
  keeps_output (rng:=rng) (fm:=fm) (on_objects m).
Proof. by apply keeps_output_zoom. Qed.

Lemma keeps_output_for_each {A B} (xs : list A)
    (body : B → A → Py.M (world rng fm) B) acc :
  (∀ b a, keeps_output (body b a)) → keeps_output (Py.for_each xs body acc).
Proof.
  intros Hbody. revert acc. induction xs as [|x xs IH]; intros acc; simpl.
  - apply keeps_output_ret.
  - apply (keeps_output_bind (body acc x) (Py.for_each xs body)); [done|].
    apply IH.
Qed.

Lemma keeps_output_choose_subscribers self : keeps_output (rng:=rng) (fm:=fm) (choose_subscribers self).
Proof.
  apply keeps_output_bind; [apply keeps_output_on_objects|].
  intros G. by apply keeps_output_zoom.
Qed.

Lemma keeps_output_choose_server self : keeps_output (rng:=rng) (fm:=fm) (choose_server self).
Proof.
  apply keeps_output_bind; [apply keeps_output_on_objects|].
  intros G. by apply keeps_output_zoom.
Qed.

Lemma keeps_output_apply_failure_model self :
  keeps_output (rng:=rng) (fm:=fm) (apply_failure_model self).
Proof.
  apply keeps_output_bind; [apply keeps_output_on_objects|].
  intros G. by apply keeps_output_zoom.
Qed.

Lemma keeps_output_build_mcast_trees self source subscribers :
  keeps_output (rng:=rng) (fm:=fm)
    (build_mcast_trees self source subscribers).
Proof.
  apply keeps_output_bind; [by apply keeps_output_zoom|]. intros trees.
  apply keeps_output_bind; [|intros; apply keeps_output_ret].
  apply keeps_output_for_each. intros. apply keeps_output_on_objects.
Qed.

(** The trees [build_mcast_trees] returns are those the provider built. *)
Lemma build_mcast_trees_inv self source subscribers w trees w' :
  build_mcast_trees self source subscribers w = (inr trees, w') →
  (get_redundant_multicast_trees (topo self) source subscribers (ntrees self)
     (mcast_heuristic self) (objects w, module_random w)).1 = inr trees.
Proof.
  unfold build_mcast_trees. py_unfold. unfold Py.zoom at 1. simpl.
  destruct (get_redundant_multicast_trees _ _ _ _ _ _) as [[e|trees'] s'];
    [done|]. simpl.
  destruct (Py.for_each trees' _ tt _) as [[e|[]] w1]; [done|].
  by intros [= -> _].
Qed.

(** A trial either raises, and the results and the files are as they
    were, or appends the one record [run_experiment] returned for the
    trees the provider built. *)
Lemma trial_outcome self r w :
  match trial self r w with
  | (inl _, w') => results w' = results w ∧ files w' = files w
  | (inr _, w') =>
      files w' = files w ∧
      ∃ source subscribers s trees failed_nodes failed_links h h' result,
        (get_redundant_multicast_trees (topo self) source subscribers
           (ntrees self) (mcast_heuristic self) s).1 = inr trees ∧
        run_experiment (topo self) failed_nodes failed_links source
          subscribers trees h = (inr result, h') ∧
        results w' = results w ++ [<["run" := PyInt r]> result]
  end.
Proof.
  unfold trial. py_unfold.
  destruct (keeps_output_choose_subscribers self w) as [Hr1 Hf1].
  destruct (choose_subscribers self w) as [[e|subs] w1]; [done|].
  destruct (keeps_output_choose_server self w1) as [Hr2 Hf2].
  destruct (choose_server self w1) as [[e|server] w2];
    [by simpl in *; split; congruence|].
  destruct (keeps_output_apply_failure_model self w2) as [Hr3 Hf3].
  destruct (apply_failure_model self w2) as [[e|[failed_nodes failed_links]] w3];
    [by simpl in *; split; congruence|].
  destruct (keeps_output_build_mcast_trees self server subs w3) as [Hr4 Hf4].
  destruct (build_mcast_trees self server subs w3) as [[e|trees] w4] eqn:Hbuild;
    [by simpl in *; split; congruence|].
  apply build_mcast_trees_inv in Hbuild.
  unfold on_objects, Py.zoom.
  destruct (run_experiment (topo self) failed_nodes failed_links server subs
              trees (objects w4)) as [[e|result] h'] eqn:Hrun; simpl in *.
  - split; congruence.
  - split; [congruence|].
    exists server, subs, (objects w3, module_random w3), trees, failed_nodes,
      failed_links, (objects w4), h', result.
    repeat split; [done..|]. congruence.
Qed.

(** C4 (the code departs from it): when the heuristic builds no tree, the
    first trial raises and ends the run; no record is appended and no file
    is written. *)
Theorem run_all_experiments_no_trees self w :
  (0 < nruns self)%Z →
  (∀ source subscribers s trees,
     (get_redundant_multicast_trees (topo self) source subscribers
        (ntrees self) (mcast_heuristic self) s).1 = inr trees → trees = []) →
  let out := run_all_experiments self w in
  is_error out.1 ∧ results out.2 = results w ∧ files out.2 = files w.
Proof.
  intros Hn Hnone. pose proof (trial_outcome self 0%Z w) as Htrial.
  destruct (trial self 0%Z w) as [[e|[]] w'] eqn:Hrun.
  - simpl. rewrite (run_all_experiments_first_raises _ _ _ _ Hn Hrun).
    by destruct Htrial.
  - destruct Htrial as (_ & source & subs & s & trees & fn & fl & h & h' &
      result & Htrees & Hexp & _).
    apply Hnone in Htrees as ->.
    pose proof (run_experiment_no_trees (topo self) fn fl source subs h) as Herr.
    by rewrite Hexp in Herr.
Qed.

(** ** The tags [build_mcast_trees] leaves on the trees *)

Lemma set_graph_attr_run t key v (h : heap) :
  set_graph_attr t key v h =
  match h !! t with
  | Some T => (inr tt, <[t := mkGraph (nodes T) (edges T) (<[key := v]> (graph T))]> h)
  | None => (inl ReferenceError, h)
  end.
Proof.
  unfold set_graph_attr, mutate, deref. py_unfold. by destruct (h !! t).
Qed.

Lemma tag_trees_keeps v trees w w' t T :
  Py.for_each trees (λ _ tree,
    on_objects (rng:=rng) (fm:=fm) (set_graph_attr tree "heuristic" v)) tt w
    = (inr tt, w') →
  objects w !! t = Some T → graph T !! "heuristic" = Some v →
  ∃ T', objects w' !! t = Some T' ∧ graph T' !! "heuristic" = Some v.
Proof.
  revert w T. induction trees as [|t0 trees IH]; intros w T; simpl.
  - intros [= <-] ? ?. by exists T.
  - unfold Py.bind, on_objects, Py.zoom. rewrite set_graph_attr_run.
    destruct (objects w !! t0) as [T0|] eqn:Ht0; [|done].
    intros Hrest Ht Htag. destruct (decide (t = t0)) as [->|Hne].
    + eapply IH; [done| |]; simpl; [apply lookup_insert_eq|].
      simpl. apply lookup_insert_eq.
    + eapply IH; [done| |done]. simpl. by rewrite lookup_insert_ne.
Qed.

Lemma tag_trees_tags v trees w w' t :
  Py.for_each trees (λ _ tree,
    on_objects (rng:=rng) (fm:=fm) (set_graph_attr tree "heuristic" v)) tt w
    = (inr tt, w') →
  t ∈ trees →
  ∃ T, objects w' !! t = Some T ∧ graph T !! "heuristic" = Some v.
Proof.
  revert w. induction trees as [|t0 trees IH]; intros w; simpl.
  - by intros _ ?%elem_of_nil.
  - unfold Py.bind, on_objects, Py.zoom. rewrite set_graph_attr_run.
    destruct (objects w !! t0) as [T0|] eqn:Ht0; [|done].
    intros Hrest [->|Hin]%elem_of_cons; [|by eapply IH].
    eapply (tag_trees_keeps _ _ _ _ t0); [done| |]; simpl.
    + apply lookup_insert_eq.
    + simpl. apply lookup_insert_eq.
Qed.

(** Every tree [build_mcast_trees] returns carries the configured
    heuristic name; the first tree gives the key of the trees' score. *)
Lemma build_mcast_trees_tags self source subscribers w trees w' :
  build_mcast_trees self source subscribers w = (inr trees, w') →
  (∀ t, t ∈ trees → is_Some (objects w' !! t)) ∧
  (trees ≠ [] → heuristic_of trees (objects w') = Some (mcast_heuristic self)).
Proof.
  unfold build_mcast_trees. py_unfold.
  destruct (Py.zoom _ _ _ w) as [[e|trees'] w1]; [done|].
  destruct (Py.for_each trees' _ tt w1) as [[e|[]] w2] eqn:Htag; [done|].
  intros [= -> ->]. split.
  - intros t Ht. destruct (tag_trees_tags _ _ _ _ t Htag Ht) as (T & -> & _).
    by eexists.
  - destruct trees as [|t0 trees]; [done|]. intros _.
    destruct (tag_trees_tags _ _ _ _ t0 Htag ltac:(left)) as (T & HT & Htg).
    unfold heuristic_of. simpl. by rewrite HT.
Qed.

(** ** What a run reads *)

Lemma oblivious_ret {A} (a : A) : oblivious (rng:=rng) (fm:=fm) (Py.ret a).
Proof. by intros w1 w2. Qed.

Lemma oblivious_of_result {A} (r : result A) :
  oblivious (rng:=rng) (fm:=fm) (Py.of_result r).
Proof. by intros w1 w2. Qed.

Lemma oblivious_bind {A B} (m : Py.M (world rng fm) A)
    (k : A → Py.M (world rng fm) B) :
  oblivious m → (∀ a, oblivious (k a)) → oblivious (m ≫= k).
Proof.
  intros Hm Hk w1 w2 Hw. py_unfold. destruct (Hm w1 w2 Hw) as [Hres Hagree].
  destruct (m w1) as [[e|a] w1'], (m w2) as [[e'|a'] w2']; simplify_eq/=;
    [done|].
  by apply Hk.
Qed.

Lemma oblivious_zoom {S A} (proj : world rng fm → S)
    (upd : S → world rng fm → world rng fm) (m : Py.M S A) :
  (∀ w1 w2, agree w1 w2 → proj w1 = proj w2) →
  (∀ s w1 w2, agree w1 w2 → agree (upd s w1) (upd s w2)) →
  oblivious (Py.zoom proj upd m).
Proof.
  intros Hproj Hupd w1 w2 Hw. unfold Py.zoom. rewrite (Hproj w1 w2 Hw).
  destruct (m (proj w2)) as [r s']. split; [done|]. by apply Hupd.
Qed.

Lemma oblivious_on_objects {A} (m : Py.M (gmap nat Graph) A) :
  oblivious (rng:=rng) (fm:=fm) (on_objects m).
Proof.
  apply oblivious_zoom.
  - by intros w1 w2 (? & _).
  - by intros s w1 w2 (? & ? & ? & ? & ?).
Qed.

Lemma oblivious_on_self_random {A} (m : Py.M rng A) :
  oblivious (fm:=fm) (Py.zoom self_random set_self_random m).
Proof.
  apply oblivious_zoom.
  - by intros w1 w2 (? & ? & _).
  - by intros s w1 w2 (? & ? & ? & ? & ?).
Qed.

Lemma oblivious_for_each {A B} (xs : list A)
    (body : B → A → Py.M (world rng fm) B) acc :
  (∀ b a, oblivious (body b a)) → oblivious (Py.for_each xs body acc).
Proof.
  intros Hbody. revert acc. induction xs as [|x xs IH]; intros acc; simpl.
  - apply oblivious_ret.
  - apply (oblivious_bind (body acc x) (Py.for_each xs body)); [done|].
    apply IH.
Qed.

Lemma oblivious_trial self r : oblivious (rng:=rng) (fm:=fm) (trial self r).
Proof.
  unfold trial.
  apply oblivious_bind.
  { apply oblivious_bind; [apply oblivious_on_objects|].
    intros G. apply oblivious_on_self_random. }
  intros subs. apply oblivious_bind.
  { apply oblivious_bind; [apply oblivious_on_objects|].
    intros G. apply oblivious_on_self_random. }
  intros server. apply oblivious_bind.
  { apply oblivious_bind; [apply oblivious_on_objects|].
    intros G. apply oblivious_zoom.
    - intros w1 w2 (? & ? & ? & ? & ?). by f_equal.
    - by intros s w1 w2 (? & ? & ? & ? & ?). }
  intros [failed_nodes failed_links]. apply oblivious_bind.
  { apply oblivious_bind.
    - apply oblivious_zoom.
      + intros w1 w2 (? & ? & ? & ? & ?). by f_equal.
      + by intros s w1 w2 (? & ? & ? & ? & ?).
    - intros trees. apply oblivious_bind; [|intros; apply oblivious_ret].
      apply oblivious_for_each. intros. apply oblivious_on_objects. }
  intros trees. apply oblivious_bind; [apply oblivious_on_objects|].
  intros result w1 w2 (? & ? & ? & ? & Hres). unfold record_result, Py.modify.
  simpl. rewrite Hres. done.
Qed.

(** ** What a trial leaves of the [logging] module and of the file system *)

Lemma keeps_system_ret {A} (a : A) : keeps_system (rng:=rng) (fm:=fm) (Py.ret a).
Proof. by intros w. Qed.

Lemma keeps_system_of_result {A} (r : result A) :
  keeps_system (rng:=rng) (fm:=fm) (Py.of_result r).
Proof. by intros w. Qed.

Lemma keeps_system_bind {A B} (m : Py.M (world rng fm) A)
    (k : A → Py.M (world rng fm) B) :
  keeps_system m → (∀ a, keeps_system (k a)) → keeps_system (m ≫= k).
Proof.
  intros Hm Hk w. py_unfold. specialize (Hm w).
  destruct (m w) as [[e|a] w1]; [done|].
  destruct (Hk a w1) as [-> ->]. done.
Qed.

Lemma keeps_system_zoom {S A} (proj : world rng fm → S)
    (upd : S → world rng fm → world rng fm) (m : Py.M S A) :
  (∀ s w, logging (upd s w) = logging w ∧ writable (upd s w) = writable w) →
  keeps_system (Py.zoom proj upd m).
Proof.
  intros Hupd w. unfold Py.zoom. destruct (m (proj w)) as [r s']. apply Hupd.
Qed.

Lemma keeps_system_on_objects {A} (m : Py.M (gmap nat Graph) A) :
  keeps_system (rng:=rng) (fm:=fm) (on_objects m).
Proof. by apply keeps_system_zoom. Qed.

Lemma keeps_system_for_each {A B} (xs : list A)
    (body : B → A → Py.M (world rng fm) B) acc :
  (∀ b a, keeps_system (body b a)) → keeps_system (Py.for_each xs body acc).
Proof.
  intros Hbody. revert acc. induction xs as [|x xs IH]; intros acc; simpl.
  - apply keeps_system_ret.
  - apply (keeps_system_bind (body acc x) (Py.for_each xs body)); [done|].
    apply IH.
Qed.

Lemma keeps_system_trial self r : keeps_system (rng:=rng) (fm:=fm) (trial self r).
Proof.
  unfold trial.
  apply keeps_system_bind.
  { apply keeps_system_bind; [apply keeps_system_on_objects|].
    intros G. by apply keeps_system_zoom. }
  intros subs. apply keeps_system_bind.
  { apply keeps_system_bind; [apply keeps_system_on_objects|].
    intros G. by apply keeps_system_zoom. }
  intros server. apply keeps_system_bind.
  { apply keeps_system_bind; [apply keeps_system_on_objects|].
    intros G. by apply keeps_system_zoom. }
  intros [failed_nodes failed_links]. apply keeps_system_bind.
  { apply keeps_system_bind; [by apply keeps_system_zoom|].
    intros trees. apply keeps_system_bind; [|intros; apply keeps_system_ret].
    apply keeps_system_for_each. intros. apply keeps_system_on_objects. }
  intros trees. apply keeps_system_bind; [apply keeps_system_on_objects|].
  by intros result w.
Qed.

Lemma keeps_system_trials self rs :
  keeps_system (rng:=rng) (fm:=fm) (Py.for_each rs (λ _ r, trial self r) tt).
Proof. apply keeps_system_for_each. intros. apply keeps_system_trial. Qed.

(** ** The [logging] module at [__init__] *)


Lemma basicConfig_run level l :
  basicConfig level l =
  if decide (root_handlers l = 0)
  then match checkLevel (level_names l) level with
       | inr rv => (inr tt, mkLogging (level_names l) (S (root_handlers l)) rv)
       | inl e =>
           (inl e, mkLogging (level_names l) (S (root_handlers l)) (root_level l))
       end
  else (inr tt, l).
Proof.
  unfold basicConfig. py_unfold. case_decide; [|done].
  by destruct (checkLevel (level_names l) level).
Qed.

(** The experiment a seeded [__init__] builds when it returns. *)
Lemma init_inv nr nt heur ns fm0 tp debug out (s1 s2 : Z) kwargs w self w' :
  init nr nt heur ns (Some fm0) tp debug out (Some s1) (Some s2) kwargs w
    = (inr self, w') →
  ∃ failrandseed l,
    kwargs !! "failure_rand_seed" = Some failrandseed ∧
    self = mkExperiment nr nt ns out heur (fresh (dom (objects w)))
             (mkParams nt ns (fm_get_params fm0) tp (Some s1) failrandseed) ∧
    w' = mkWorld (<[fresh (dom (objects w)) := NetworkxSdnTopology (drop 1 tp)]>
                    (objects w))
           (Random s1) (Random s2) fm0 [] (files w) (entropy w) l (writable w).
Proof.
  unfold init, new_object. world_unfold. py_unfold.
  destruct (basicConfig _ (logging w)) as [[e|[]] l]; [done|]. simpl.
  destruct (tp !! 0) as [topo0|]; simpl; [|done].
  case_decide; [|done]. simpl.
  destruct (kwargs !! "failure_rand_seed") as [frs|]; simpl; [|done].
  intros [= <- <-]. by exists frs, l.
Qed.

(** C8: two runs of the experiment built with the same seeds, the same
    number of trials, the same topology, the same failure model and the
    same other parameters hold the same records in the results list,
    whatever the output file, the debug level, the files present, the
    state of the [logging] module and the entropy of the system.  The
    runs also end alike, with the same exception or none, when their
    output files can both be written or both cannot; and two runs that
    return have written the same document. *)
Theorem run_all_experiments_deterministic nr nt heur ns fm0 tp kwargs
    (seed1 seed2 : Z) debug1 debug2 out1 out2
    (w1 w2 : world rng fm) self1 self2 w1' w2' :
  objects w1 = objects w2 →
  init nr nt heur ns (Some fm0) tp debug1 out1 (Some seed1) (Some seed2) kwargs w1
    = (inr self1, w1') →
  init nr nt heur ns (Some fm0) tp debug2 out2 (Some seed1) (Some seed2) kwargs w2
    = (inr self2, w2') →
  let run1 := run_all_experiments self1 w1' in
  let run2 := run_all_experiments self2 w2' in
  results run1.2 = results run2.2 ∧
  (writable w1 out1 = writable w2 out2 → run1.1 = run2.1) ∧
  (run1.1 = inr tt → run2.1 = inr tt →
   files run1.2 !! out1 = files run2.2 !! out2).
Proof.
  intros Hobj Hinit1 Hinit2.
  apply init_inv in Hinit1 as (frs1 & l1 & Hfrs1 & -> & ->).
  apply init_inv in Hinit2 as (frs2 & l2 & Hfrs2 & -> & ->).
  rewrite <-Hobj. set (c := fresh (dom (objects w1))).
  set (h := <[c := NetworkxSdnTopology (drop 1 tp)]> (objects w1)).
  assert (frs2 = frs1) as -> by congruence.
  unfold run_all_experiments. py_unfold. simpl.
  set (self := mkExperiment nr nt ns out1 heur c
                 (mkParams nt ns (fm_get_params fm0) tp (Some seed1) frs1)).
  set (u1 := mkWorld h (Random seed1) (Random seed2) fm0 [] (files w1)
               (entropy w1) l1 (writable w1)).
  set (u2 := mkWorld h (Random seed1) (Random seed2) fm0 [] (files w2)
               (entropy w2) l2 (writable w2)).
  pose proof (oblivious_for_each (range nr) (λ _ r, trial self r) tt
                (λ _ r, oblivious_trial self r) u1 u2) as [Hres Hagree]; [done|].
  destruct (keeps_system_trials self (range nr) u1) as [_ Hwr1].
  destruct (keeps_system_trials self (range nr) u2) as [_ Hwr2].
  change (Py.for_each (range nr) (λ _ r, trial
            (mkExperiment nr nt ns out2 heur c
               (mkParams nt ns (fm_get_params fm0) tp (Some seed1) frs1)) r) tt)
    with (Py.for_each (range nr) (λ _ r, trial self r) tt).
  destruct (Py.for_each (range nr) (λ _ r, trial self r) tt u1) as [[e|[]] v1],
    (Py.for_each (range nr) (λ _ r, trial self r) tt u2) as [[e'|[]] v2];
    simplify_eq/=; destruct Hagree as (? & ? & ? & ? & Hr).
  - done.
  - unfold output_results. py_unfold. simpl. rewrite Hwr1, Hwr2.
    destruct (writable w1 out1), (writable w2 out2); simpl;
      rewrite ?lookup_insert_eq, ?Hr; split_and!; done.
Qed.

End driver.

(** * The driver on the small campus *)

Lemma campus_init nruns ntrees nsubscribers debug level out
    (seed1 seed2 : nat) e fs :
  default_level_names !! upper debug = Some level →
  init nruns ntrees "steiner" nsubscribers (Some tt) ["networkx"] debug out
    (Some (Z.of_nat seed1)) (Some (Z.of_nat seed2))
    {[ "failure_rand_seed" := PyNone ]} (fresh_process e fs)
  = (inr (campus_experiment nruns ntrees nsubscribers out (Z.of_nat seed1)),
     campus_world_at level seed1 seed2 e fs).
Proof.
  intros Hlevel. unfold init, new_object. world_unfold. py_unfold. simpl.
  rewrite basicConfig_run. unfold getLevelName. simpl. rewrite Hlevel. simpl.
  unfold campus_experiment, campus_world_at. by rewrite !Nat2Z.id.
Qed.

(** Three trials, two subscribers, no tree requested: the first trial
    raises [IndexError]; no record, no file. *)
Lemma run_all_experiments_no_trees_witness :
  let out := run_all_experiments (campus_experiment 3 0 2 "results.json" 7)
               (campus_world 7 11 0 ∅) in
  is_error out.1 ∧ results out.2 = results (campus_world 7 11 0 ∅) ∧
  files out.2 = files (campus_world 7 11 0 ∅).
Proof.
  apply (run_all_experiments_no_trees (campus_experiment 3 0 2 "results.json" 7)
           (campus_world 7 11 0 ∅)).
  - done.
  - intros source subscribers [h g] trees. simpl. by intros [= <-].
Defined.

Lemma run_all_experiments_no_trees_IndexError :
  let out := run_all_experiments (campus_experiment 3 0 2 "results.json" 7)
               (campus_world 7 11 0 ∅) in
  out.1 = inl IndexError ∧ results out.2 = [] ∧ files out.2 = ∅.
Proof. by vm_compute. Qed.

(** Five subscribers asked of three hosts. *)
Lemma run_all_experiments_cannot_sample_witness :
  let out := run_all_experiments (campus_experiment 3 2 5 "results.json" 7)
               (campus_world 7 11 0 ∅) in
  is_error out.1 ∧
  results out.2 = results (campus_world 7 11 0 ∅) ∧
  files out.2 = files (campus_world 7 11 0 ∅) ∧
  objects out.2 = objects (campus_world 7 11 0 ∅) ∧
  failure_model out.2 = failure_model (campus_world 7 11 0 ∅) ∧
  module_random out.2 = module_random (campus_world 7 11 0 ∅).
Proof.
  apply (run_all_experiments_cannot_sample
           (campus_experiment 3 2 5 "results.json" 7) (campus_world 7 11 0 ∅)
           campus).
  - done.
  - by vm_compute.
  - left. by vm_compute.
Defined.

(** C6, as stated, fails when no trial is requested: five subscribers
    asked of three hosts raise nothing, and the output file is written. *)
Lemma run_all_experiments_cannot_sample_counterexample :
  let self := campus_experiment 0 2 5 "results.json" 7 in
  let out := run_all_experiments self (campus_world 7 11 0 ∅) in
  objects (campus_world 7 11 0 ∅) !! topo self = Some campus ∧
  (Z.of_nat (length (get_hosts campus)) < nsubscribers self)%Z ∧
  out.1 = inr tt ∧
  files out.2 !! "results.json" = Some (results_params self, []).
Proof. by vm_compute. Qed.

(** Two runs of two trials with the seeds 7 and 11, from processes that
    differ in their entropy, their files, their debug level and their
    output file. *)
Lemma run_all_experiments_deterministic_witness :
  let run1 := run_all_experiments (campus_experiment 2 2 2 "a.json" 7)
                (campus_world_at 20 7 11 3 ∅) in
  let run2 := run_all_experiments (campus_experiment 2 2 2 "b.json" 7)
                (campus_world_at 10 7 11 5 {[ "b.json" := (results_params
                   (campus_experiment 1 1 1 "b.json" 1), []) ]}) in
  results run1.2 = results run2.2 ∧ run1.1 = run2.1 ∧
  files run1.2 !! "a.json" = files run2.2 !! "b.json".
Proof.
  intros run1 run2.
  destruct (run_all_experiments_deterministic 2 2 "steiner" 2 tt ["networkx"]
              {[ "failure_rand_seed" := PyNone ]} 7 11 "info" "debug"
              "a.json" "b.json"
              (fresh_process 3 ∅)
              (fresh_process 5 {[ "b.json" := (results_params
                      (campus_experiment 1 1 1 "b.json" 1), []) ]})
              (campus_experiment 2 2 2 "a.json" 7)
              (campus_experiment 2 2 2 "b.json" 7)
              (campus_world_at 20 7 11 3 ∅)
              (campus_world_at 10 7 11 5 {[ "b.json" := (results_params
                      (campus_experiment 1 1 1 "b.json" 1), []) ]}))
    as (Hres & Hend & Hdoc).
  - done.
  - by apply (campus_init 2 2 2 "info" 20 "a.json" 7 11).
  - by apply (campus_init 2 2 2 "debug" 10 "b.json" 7 11).
  - split; [exact Hres|]. split; [by apply Hend|].
    apply Hdoc; by vm_compute.
Defined.

(** The records of that run: both trials serve both subscribers. *)
Lemma run_all_experiments_deterministic_records :
  let run1 := run_all_experiments (campus_experiment 2 2 2 "a.json" 7)
                (campus_world 7 11 3 ∅) in
  run1.1 = inr tt ∧
  results run1.2 =
    [ {[ "oracle" := PyFloat (fraction 2 2); "steiner" := PyFloat (fraction 2 2);
         "run" := PyInt 0 ]};
      {[ "oracle" := PyFloat (fraction 2 2); "steiner" := PyFloat (fraction 2 2);
         "run" := PyInt 1 ]} ].
Proof. by vm_compute. Qed.

(** * The scenarios of the path A - B - C - D *)

(** No failure: the subscriber D is reached in the topology and in the
    tree. *)
Example path_no_failure :
  (run_experiment 0 [] [] "A" ["D"] [1] path_heap).1 =
  inr {[ "oracle" := PyFloat (fraction 1 1); "steiner" := PyFloat (fraction 1 1) ]}.
Proof. by vm_compute. Qed.

(** The link B - C down: D is cut off. *)
Example path_link_down :
  (run_experiment 0 [] [("B", "C")] "A" ["D"] [1] path_heap).1 =
  inr {[ "oracle" := PyFloat (fraction 0 1); "steiner" := PyFloat (fraction 0 1) ]}.
Proof. by vm_compute. Qed.

(** The link B - C down: of the subscribers B and D, B is still reached. *)
Example path_link_down_half :
  (run_experiment 0 [] [("C", "B")] "A" ["B"; "D"] [1] path_heap).1 =
  inr {[ "oracle" := PyFloat (fraction 1 2); "steiner" := PyFloat (fraction 1 2) ]}.
Proof. by vm_compute. Qed.

(** The trial edits the tree it is given: the tree has lost the link. *)
Example path_tree_edited :
  edges <$> (run_experiment 0 [] [("B", "C")] "A" ["D"] [1] path_heap).2 !! 1 =
  Some {[ ("A", "B"); ("C", "D") ]}.
Proof. by vm_compute. Qed.

(** * Further properties of the reachability evaluator *)

(** ** Pruning a pruned graph *)

Lemma remove_nodes_from_edges fn G e :
  e ∈ edges (remove_nodes_from fn G) → e ∈ edges G.
Proof.
  unfold remove_nodes_from. revert G.
  induction fn as [|n fn IH]; intros G; simpl; [done|].
  intros He%IH. unfold remove_node in He. case_decide; [|done].
  simpl in He. by apply elem_of_filter in He as [_ ?].
Qed.

Lemma remove_edges_from_absent fl G :
  (∀ u v, (u, v) ∈ fl → ((u, v) ∉ edges G) ∧ ((v, u) ∉ edges G)) →
  remove_edges_from fl G = G.
Proof.
  unfold remove_edges_from. revert G.
  induction fl as [|[a b] fl IH]; intros G Habs; cbn [foldl]; [done|].
  assert (remove_edge G (a, b) = G) as ->.
  { destruct (Habs a b ltac:(left)) as [H1 H2].
    destruct G as [ns es attrs]. unfold remove_edge. simpl in *. f_equal.
    apply set_eq. intros e. rewrite !elem_of_difference, !elem_of_singleton.
    split; [tauto|]. intros He. repeat split; [done|..]; by intros ->. }
  apply IH. intros u v Hin. apply Habs. by right.
Qed.

Lemma remove_nodes_from_absent fn G :
  (∀ n, n ∈ fn → n ∉ nodes G) → remove_nodes_from fn G = G.
Proof.
  unfold remove_nodes_from. revert G.
  induction fn as [|n fn IH]; intros G Habs; cbn [foldl]; [done|].
  assert (remove_node G n = G) as ->.
  { unfold remove_node. rewrite decide_False; [done|]. apply Habs. by left. }
  apply IH. intros m Hin. apply Habs. by right.
Qed.

(** Removing the same failures a second time changes nothing. *)
Lemma prune_idemp fn fl G : prune fn fl (prune fn fl G) = prune fn fl G.
Proof.
  unfold prune at 1. rewrite remove_edges_from_absent.
  - apply remove_nodes_from_absent. intros n Hn.
    unfold prune. rewrite remove_nodes_from_nodes. tauto.
  - intros u v Hin. unfold prune.
    split; intros He%remove_nodes_from_edges%remove_edges_from_edges;
      simpl in He; tauto.
Qed.

Lemma fraction_bounds a b : a ≤ b → b ≠ 0 → (0 ≤ fraction a b ≤ 1)%Qc.
Proof.
  intros Hab Hb. unfold fraction, Qcle. simpl. rewrite !Qred_correct.
  unfold Qle. simpl. split; [lia|].
  rewrite Z.mul_1_r, Z.mul_1_l.
  rewrite <-positive_nat_Z, Nat2Pos.id by done. lia.
Qed.

(** ** When the evaluator returns, and within which bounds *)

(** X1: a fraction [get_reachability] returns lies between 0 and 1. *)
Theorem get_reachability_bounds fn fl server subs ts (h : heap) q :
  (get_reachability fn fl server subs ts h).1 = inr q → (0 ≤ q ≤ 1)%Qc.
Proof.
  rewrite get_reachability_result.
  destruct (accumulate fn fl server subs h ts ∅) as [e|U] eqn:HU; [done|].
  intros [Hsize ->]%float_div_inv. apply fraction_bounds; [|done].
  apply subseteq_size. intros v Hv.
  apply accumulate_inv in HU as [_ HU].
  apply HU in Hv as [?%elem_of_empty|(r & G & found & _ & _ & Hfound & Hv)];
    [done|].
  by apply (evaluate_subseteq _ _ _ _ _ _ Hfound).
Qed.

Lemma get_reachability_bounds_witness :
  (0 ≤ fraction 1 2 ≤ 1)%Qc.
Proof.
  apply (get_reachability_bounds [] [("B", "C")] "A" {[ "B"; "D" ]} [0; 1]
           path_heap).
  by vm_compute.
Defined.

(** X2: [get_reachability] returns a fraction exactly when there is a
    subscriber and every candidate is a live graph object that carries a
    heuristic tag and holds the server, the server being no failed node;
    otherwise it raises. *)
Theorem get_reachability_returns_iff fn fl server subs ts (h : heap) :
  (∃ q, (get_reachability fn fl server subs ts h).1 = inr q) ↔
  subs ≠ ∅ ∧
  ∀ r, r ∈ ts → ∃ G, h !! r = Some G ∧ is_Some (graph G !! "heuristic") ∧
                     server ∈ nodes G ∧ server ∉ fn.
Proof.
  rewrite get_reachability_result. split.
  - intros [q Hq].
    destruct (accumulate fn fl server subs h ts ∅) as [e|U] eqn:HU; [done|].
    apply float_div_inv in Hq as [Hsize _]. split.
    + intros ->. by rewrite size_empty in Hsize.
    + intros r Hr. apply accumulate_inv in HU as [Hall _].
      destruct (Hall r Hr) as (G & found & HG & Hfound).
      apply evaluate_inv in Hfound as (? & ? & ? & _). by exists G.
  - intros [Hsubs Hok].
    destruct (accumulate_returns fn fl server subs h ts ∅) as [U ->].
    { intros r Hr. destruct (Hok r Hr) as (G & HG & Htag & Hs & Hfn).
      destruct (evaluate_returns fn fl server subs G Hs Hfn Htag)
        as (found & ? & _).
      by exists G, found. }
    destruct (size subs) eqn:Hsize; [|by eexists].
    by apply size_empty_iff, leibniz_equiv in Hsize.
Qed.

(** ** What the evaluator does to the graphs *)

Lemma for_each_round_pruned fn fl server subs ts acc (h : heap) acc' h' r :
  Py.for_each ts (round fn fl server subs) acc h = (inr acc', h') →
  h' !! r = if decide (r ∈ ts) then prune fn fl <$> h !! r else h !! r.
Proof.
  revert acc h. induction ts as [|t ts IH]; intros acc h; simpl.
  - by intros [= _ <-].
  - unfold Py.bind. rewrite round_run.
    destruct (h !! t) as [G|] eqn:Ht; [|done].
    destruct (evaluate fn fl server subs G) as [e|U]; [done|].
    intros Hrest. rewrite (IH _ _ Hrest).
    destruct (decide (r = t)) as [->|Hne].
    + rewrite lookup_insert_eq, Ht. simpl. rewrite prune_idemp.
      rewrite (decide_True (P := t ∈ t :: ts)) by (by left).
      by case_decide.
    + rewrite lookup_insert_ne by done.
      destruct (decide (r ∈ ts)) as [Hin|Hout].
      * rewrite decide_True; [done|]. by right.
      * rewrite decide_False; [done|]. by intros [?|?]%elem_of_cons.
Qed.

(** X3: a call of [get_reachability] that returns has replaced every
    candidate graph by what is left of it once the failed links and the
    failed nodes are removed, however often the graph occurs in the
    sequence, and has touched no other graph object. *)
Theorem get_reachability_prunes fn fl server subs ts (h h' : heap) q r :
  get_reachability fn fl server subs ts h = (inr q, h') →
  h' !! r = if decide (r ∈ ts) then prune fn fl <$> h !! r else h !! r.
Proof.
  rewrite get_reachability_unfold. py_unfold.
  destruct (Py.for_each ts (round fn fl server subs) ∅ h) as [[e|all] h1] eqn:Hloop;
    [done|].
  destruct (float_div (size all) (size subs)); [done|].
  intros [= _ <-]. by eapply for_each_round_pruned.
Qed.

Lemma get_reachability_prunes_witness :
  (get_reachability ["C"] [("B", "A")] "A" {[ "B"; "D" ]} [1; 1] path_heap).2 !! 1
  = (if decide (1 ∈ [1; 1]) then prune ["C"] [("B", "A")] <$> path_heap !! 1
     else path_heap !! 1).
Proof.
  apply (get_reachability_prunes ["C"] [("B", "A")] "A" {[ "B"; "D" ]} [1; 1]
           path_heap _ (fraction 0 2)).
  by vm_compute.
Defined.

(** X4: what is left of a graph after the removal holds no failed node
    and no failed link, in either orientation, is a subgraph of the graph
    it was, and keeps its attributes. *)
Theorem prune_spec fn fl G :
  subgraph (prune fn fl G) G ∧
  graph (prune fn fl G) = graph G ∧
  (∀ n, n ∈ fn → n ∉ nodes (prune fn fl G)) ∧
  (∀ u v, (u, v) ∈ fl →
     ¬ linked (prune fn fl G) u v ∧ ¬ linked (prune fn fl G) v u).
Proof.
  split; [|split; [apply prune_graph|split]].
  - split.
    + intros v Hv. unfold prune in Hv.
      apply remove_nodes_from_nodes in Hv as [Hv _].
      by rewrite remove_edges_from_nodes in Hv.
    + intros u v Hadj. apply adjacent_prune in Hadj. by destruct Hadj.
  - intros n Hn. unfold prune. rewrite remove_nodes_from_nodes. tauto.
  - intros u v Hin. unfold linked, prune.
    split; intros [He|He];
      apply remove_nodes_from_edges, remove_edges_from_edges in He;
      simpl in He; tauto.
Qed.

(** ** Evaluating again, with more graphs, with more failures *)

Lemma for_each_round_view fn fl server subs ts acc (h : heap) r :
  evaluate fn fl server subs
    <$> (Py.for_each ts (round fn fl server subs) acc h).2 !! r
  = evaluate fn fl server subs <$> h !! r.
Proof.
  revert acc h. induction ts as [|t ts IH]; intros acc h; simpl; [done|].
  unfold Py.bind. rewrite round_run.
  destruct (h !! t) as [G|] eqn:Ht; [|done].
  assert (evaluate fn fl server subs <$> <[t:=prune fn fl G]> h !! r
          = evaluate fn fl server subs <$> h !! r) as Hstep.
  { destruct (decide (r = t)) as [->|Hne].
    - rewrite lookup_insert_eq, Ht. simpl. by rewrite evaluate_prune.
    - by rewrite lookup_insert_ne. }
  destruct (evaluate fn fl server subs G) as [e|U]; simpl; [done|].
  by rewrite IH.
Qed.

(** X5: a second call of [get_reachability] with the same arguments, on
    the graphs the first call has edited, ends as the first did: the same
    fraction, or the same exception. *)
Theorem get_reachability_again fn fl server subs ts (h : heap) :
  (get_reachability fn fl server subs ts
     (get_reachability fn fl server subs ts h).2).1
  = (get_reachability fn fl server subs ts h).1.
Proof.
  rewrite !get_reachability_result.
  rewrite (accumulate_ext fn fl server subs _ h); [done|].
  intros r _. rewrite get_reachability_unfold. py_unfold.
  pose proof (for_each_round_view fn fl server subs ts ∅ h r) as Hview.
  by destruct (Py.for_each ts (round fn fl server subs) ∅ h) as [[e|all] h1].
Qed.

(** X6: more candidate graphs never lower the fraction: when every graph
    of one sequence occurs in another and both evaluations return, the
    second fraction is at least the first. *)
Theorem get_reachability_more_graphs fn fl server subs ts ts' (h : heap) q q' :
  ts ⊆ ts' →
  (get_reachability fn fl server subs ts h).1 = inr q →
  (get_reachability fn fl server subs ts' h).1 = inr q' →
  (q ≤ q')%Qc.
Proof.
  intros Hsub. rewrite !get_reachability_result.
  destruct (accumulate fn fl server subs h ts ∅) as [e|U] eqn:HU; [done|].
  destruct (accumulate fn fl server subs h ts' ∅) as [e|U'] eqn:HU'; [done|].
  intros [_ ->]%float_div_inv [_ ->]%float_div_inv.
  apply fraction_le, subseteq_size. intros v Hv.
  apply accumulate_inv in HU as [_ HU]. apply accumulate_inv in HU' as [_ HU'].
  apply HU in Hv as [?%elem_of_empty|(r & G & found & Hr & ? & ? & ?)]; [done|].
  apply HU'. right. exists r, G, found. split; [by apply Hsub|done].
Qed.

Lemma get_reachability_more_graphs_witness :
  (fraction 1 2 ≤ fraction 2 2)%Qc.
Proof.
  apply (get_reachability_more_graphs [] [("B", "C")] "A" {[ "B"; "D" ]}
           [1] [1; 0] (ring_heap "steiner")).
  - intros r ->%list_elem_of_singleton. by left.
  - by vm_compute.
  - by vm_compute.
Defined.

Lemma surviving_more_failures fn fl fn' fl' G u v :
  fn ⊆ fn' → fl ⊆ fl' → surviving fn' fl' G u v → surviving fn fl G u v.
Proof.
  intros Hfn Hfl (Hadj & H1 & H2 & H3 & H4). split; [done|].
  repeat split; intros ?; [apply H1|apply H2|apply H3|apply H4]; auto.
Qed.

(** X7: more failures never raise the fraction: when an evaluation
    returns, the evaluation under fewer failed nodes and links of the same
    graphs returns too, and its fraction is at least as large. *)
Theorem get_reachability_more_failures fn fl fn' fl' server subs ts (h : heap) q' :
  fn ⊆ fn' → fl ⊆ fl' →
  (get_reachability fn' fl' server subs ts h).1 = inr q' →
  ∃ q, (get_reachability fn fl server subs ts h).1 = inr q ∧ (q' ≤ q)%Qc.
Proof.
  intros Hfn Hfl. rewrite !get_reachability_result.
  destruct (accumulate fn' fl' server subs h ts ∅) as [e|U'] eqn:HU'; [done|].
  intros [Hsize ->]%float_div_inv.
  apply accumulate_inv in HU' as [Hall' HU'].
  destruct (accumulate_returns fn fl server subs h ts ∅) as [U HU].
  { intros r Hr. destruct (Hall' r Hr) as (G & found' & HG & Hfound').
    apply evaluate_inv in Hfound' as (Hs & Hnot & Htag & _).
    destruct (evaluate_returns fn fl server subs G Hs) as (found & ? & _);
      [by intros ?%Hfn|done|].
    by exists G, found. }
  rewrite HU. destruct (size subs) eqn:Hn; [done|]. eexists. split; [done|].
  apply fraction_le, subseteq_size. intros v Hv.
  apply HU' in Hv as [?%elem_of_empty|(r & G & found' & Hr & HG & Hfound' & Hv)];
    [done|].
  apply evaluate_inv in Hfound' as (Hs & Hnot & Htag & Hfound').
  apply Hfound' in Hv as [Hv (_ & _ & Hrtc)].
  apply accumulate_inv in HU as [Hall HU]. apply HU. right.
  destruct (Hall r Hr) as (G0 & found & HG0 & Hfound).
  assert (G0 = G) as -> by congruence.
  exists r, G, found. repeat split; try done.
  apply evaluate_inv in Hfound as (_ & Hnot0 & _ & Hfound). apply Hfound.
  split; [done|]. repeat split; [done..|].
  eapply rtc_subrel; [|done]. intros x y. by apply surviving_more_failures.
Qed.

Lemma get_reachability_more_failures_witness :
  ∃ q, (get_reachability [] [("B", "C")] "A" {[ "B"; "D" ]} [1] path_heap).1
       = inr q ∧ (fraction 0 2 ≤ q)%Qc.
Proof.
  apply (get_reachability_more_failures [] [("B", "C")] ["B"]
           [("C", "D"); ("B", "C")] "A" {[ "B"; "D" ]} [1] path_heap).
  - by intros x ?%elem_of_nil.
  - intros x ->%list_elem_of_singleton. by right; left.
  - by vm_compute.
Defined.

Lemma evaluate_failure_sets fn fl fn' fl' server subs G :
  (∀ n, n ∈ fn ↔ n ∈ fn') →
  (∀ u v, (u, v) ∈ fl ∨ (v, u) ∈ fl ↔ (u, v) ∈ fl' ∨ (v, u) ∈ fl') →
  evaluate fn fl server subs G = evaluate fn' fl' server subs G.
Proof.
  intros Hfn Hfl. unfold evaluate.
  rewrite (single_source_shortest_path_ext (prune fn fl G) (prune fn' fl' G));
    [done| |].
  - unfold prune. rewrite !remove_nodes_from_nodes, !remove_edges_from_nodes.
    by rewrite Hfn.
  - intros u v. rewrite !adjacent_prune. unfold surviving.
    rewrite !Hfn. specialize (Hfl u v). tauto.
Qed.

(** X8: the fraction depends on the failures only as sets: the order and
    the repetitions in [failed_nodes] and [failed_links] do not matter, nor
    does the orientation in which a failed link is given. *)
Theorem get_reachability_failure_sets fn fl fn' fl' server subs ts (h : heap) :
  (∀ n, n ∈ fn ↔ n ∈ fn') →
  (∀ u v, (u, v) ∈ fl ∨ (v, u) ∈ fl ↔ (u, v) ∈ fl' ∨ (v, u) ∈ fl') →
  (get_reachability fn fl server subs ts h).1
  = (get_reachability fn' fl' server subs ts h).1.
Proof.
  intros Hfn Hfl. rewrite !get_reachability_result.
  assert (∀ acc, accumulate fn fl server subs h ts acc
                 = accumulate fn' fl' server subs h ts acc) as ->; [|done].
  induction ts as [|r ts IH]; intros acc; simpl; [done|].
  destruct (h !! r) as [G|]; [|done].
  rewrite (evaluate_failure_sets fn fl fn' fl') by done.
  by destruct (evaluate fn' fl' server subs G).
Qed.

Lemma get_reachability_failure_sets_witness :
  (get_reachability ["C"; "C"] [("A", "B")] "A" {[ "B"; "D" ]} [0] (ring_heap "t")).1
  = (get_reachability ["C"] [("B", "A"); ("A", "B")] "A" {[ "B"; "D" ]} [0]
       (ring_heap "t")).1.
Proof.
  apply get_reachability_failure_sets.
  - intros n. rewrite !elem_of_cons, !elem_of_nil. tauto.
  - intros u v. rewrite !elem_of_cons, !elem_of_nil.
    split; intros [[?|?]|[?|?]]; simplify_eq; tauto.
Defined.

(** ** The extreme fractions *)

Lemma get_reachability_inv fn fl server subs ts (h : heap) q :
  (get_reachability fn fl server subs ts h).1 = inr q →
  ∃ U : gset node,
    (∀ v, v ∈ U ↔ served fn fl server subs ts h v) ∧
    size subs ≠ 0 ∧ q = fraction (size U) (size subs).
Proof.
  rewrite get_reachability_result.
  destruct (accumulate fn fl server subs h ts ∅) as [e|U] eqn:HU; [done|].
  intros [Hsize ->]%float_div_inv. exists U. split; [|done].
  apply accumulate_inv in HU as [Hall HU]. intros v. rewrite HU. unfold served.
  split.
  - intros [?%elem_of_empty|(r & G & found & Hr & HG & Hfound & Hv)]; [done|].
    apply evaluate_inv in Hfound as (_ & _ & _ & Hfound).
    apply Hfound in Hv as [? ?]. split; [done|]. by exists r, G.
  - intros (Hv & r & G & Hr & HG & Hreach). right.
    destruct (Hall r Hr) as (G' & found & HG' & Hfound).
    assert (G' = G) as -> by congruence.
    exists r, G, found. repeat split; try done.
    apply evaluate_inv in Hfound as (_ & _ & _ & Hfound). by apply Hfound.
Qed.

Lemma fraction_eq_1 a b : b ≠ 0 → fraction a b = 1%Qc ↔ a = b.
Proof.
  intros Hb. unfold fraction. rewrite Q2Qc_eq_iff. unfold Qeq. simpl.
  rewrite Z.mul_1_r, Z.mul_1_l, <-positive_nat_Z, Nat2Pos.id by done. lia.
Qed.

Lemma fraction_eq_0 a b : fraction a b = 0%Qc ↔ a = 0.
Proof.
  unfold fraction. rewrite Q2Qc_eq_iff. unfold Qeq. simpl. lia.
Qed.

(** X9: the fraction returned is 1 exactly when every subscriber is
    served by some candidate graph, and 0 exactly when none is; so it is 0
    when there is no candidate graph. *)
Theorem get_reachability_all_or_none fn fl server subs ts (h : heap) q :
  (get_reachability fn fl server subs ts h).1 = inr q →
  (q = 1%Qc ↔ ∀ v, v ∈ subs → served fn fl server subs ts h v) ∧
  (q = 0%Qc ↔ ∀ v, v ∈ subs → ¬ served fn fl server subs ts h v) ∧
  (ts = [] → q = 0%Qc).
Proof.
  intros (U & HU & Hsize & ->)%get_reachability_inv.
  assert (U ⊆ subs) as Hsub by (intros v Hv; by apply HU in Hv as [? _]).
  assert (fraction (size U) (size subs) = 0%Qc ↔
          ∀ v, v ∈ subs → ¬ served fn fl server subs ts h v) as Hzero.
  { rewrite fraction_eq_0, size_empty_iff. split.
    - intros Hempty v _ Hv%HU. by apply Hempty in Hv.
    - intros Hnone v. split; [|by intros ?%elem_of_empty].
      intros Hv. exfalso. apply (Hnone v); [by apply Hsub|by apply HU]. }
  split; [|split; [done|]].
  - rewrite fraction_eq_1 by done. split.
    + intros Heq v Hv. apply HU.
      assert (U = subs) as Hall
        by (apply set_subseteq_size_eq; [done|lia]).
      by rewrite Hall.
    + intros Hall. f_equal. apply leibniz_equiv, set_equiv. intros v.
      split; [apply Hsub|]. intros Hv. by apply HU, Hall.
  - intros ->. apply Hzero. intros v _ (_ & r & G & ?%elem_of_nil & _). done.
Qed.

Lemma get_reachability_all_or_none_witness :
  (fraction 2 2 = 1%Qc ↔
     ∀ v, v ∈ ({[ "B"; "D" ]} : gset node) →
          served [] [("B", "C")] "A" {[ "B"; "D" ]} [0] (ring_heap "t") v) ∧
  (fraction 2 2 = 0%Qc ↔
     ∀ v, v ∈ ({[ "B"; "D" ]} : gset node) →
          ¬ served [] [("B", "C")] "A" {[ "B"; "D" ]} [0] (ring_heap "t") v) ∧
  ([0] = [] → fraction 2 2 = 0%Qc).
Proof.
  apply (get_reachability_all_or_none [] [("B", "C")] "A" {[ "B"; "D" ]} [0]
           (ring_heap "t")).
  by vm_compute.
Defined.

(** * Further properties of a trial *)

(** The two scores of a trial that returns. *)
Lemma run_experiment_scores topo fn fl server subscribers trees
    (h h' : heap) result :
  (∀ t, t ∈ trees → is_Some (h !! t)) →
  run_experiment topo fn fl server subscribers trees h = (inr result, h') →
  ∃ heuristic q_oracle q_trees,
    heuristic_of trees h = Some heuristic ∧
    result = <[heuristic := PyFloat q_trees]> {["oracle" := PyFloat q_oracle]} ∧
    (0 ≤ q_oracle ≤ 1)%Qc ∧ (0 ≤ q_trees ≤ 1)%Qc.
Proof.
  intros Hlive Hrun.
  apply run_experiment_inv in Hrun
    as (G & Uo & qh & heuristic & HG & HUo & Hsubs & Hqh & Hheur & ->); [|done].
  set (subs := list_to_set subscribers : gset node) in *.
  exists heuristic, (fraction (size Uo) (size subs)), qh.
  split; [done|]. split; [done|]. split.
  - apply fraction_bounds.
    + apply subseteq_size. by eapply evaluate_subseteq.
    + by rewrite size_empty_iff; intros ?%leibniz_equiv.
  - rewrite get_reachability_result in Hqh.
    destruct (accumulate fn fl server subs h trees ∅) as [e|U] eqn:HU; [done|].
    apply float_div_inv in Hqh as [Hsize ->]. apply fraction_bounds; [|done].
    apply subseteq_size. intros v Hv.
    apply accumulate_inv in HU as [_ HU].
    apply HU in Hv as [?%elem_of_empty|(r & T & found & _ & _ & Hfound & Hv)];
      [done|].
    by apply (evaluate_subseteq _ _ _ _ _ _ Hfound).
Qed.

(** X10: the result [run_experiment] returns for live trees has the keys
    "oracle" and the tag of the first tree, and nothing else; both values
    are fractions between 0 and 1. *)
Theorem run_experiment_result_shape topo fn fl server subscribers trees
    (h h' : heap) result :
  (∀ t, t ∈ trees → is_Some (h !! t)) →
  run_experiment topo fn fl server subscribers trees h = (inr result, h') →
  ∃ heuristic q_oracle q_trees,
    heuristic_of trees h = Some heuristic ∧
    dom result = {[ "oracle"; heuristic ]} ∧
    result !! "oracle" = Some (PyFloat q_oracle) ∧
    result !! heuristic = Some (PyFloat q_trees) ∧
    (0 ≤ q_oracle ≤ 1)%Qc ∧ (0 ≤ q_trees ≤ 1)%Qc.
Proof.
  intros Hlive Hrun.
  apply run_experiment_scores in Hrun
    as (heuristic & qo & qh & Hheur & -> & Hqo & Hqh); [|done].
  destruct (decide (heuristic = "oracle")) as [->|Hne].
  - exists "oracle", qh, qh. rewrite lookup_insert_eq.
    split_and!; try done; try apply Hqh;
      try (rewrite dom_insert_L, dom_singleton_L; set_solver).
  - exists heuristic, qo, qh.
    rewrite lookup_insert_eq, lookup_insert_ne, lookup_singleton_eq by done.
    split_and!; try done; try apply Hqh; try apply Hqo;
      try (rewrite dom_insert_L, dom_singleton_L; set_solver).
Qed.

Lemma run_experiment_result_shape_witness :
  ∃ heuristic q_oracle q_trees,
    heuristic_of [1] (ring_heap "steiner") = Some heuristic ∧
    dom (<["steiner" := PyFloat (fraction 1 2)]>
           {["oracle" := PyFloat (fraction 2 2)]} : gmap string pyval)
      = {[ "oracle"; heuristic ]} ∧
    (<["steiner" := PyFloat (fraction 1 2)]> {["oracle" := PyFloat (fraction 2 2)]}
       : gmap string pyval) !! "oracle" = Some (PyFloat q_oracle) ∧
    (<["steiner" := PyFloat (fraction 1 2)]> {["oracle" := PyFloat (fraction 2 2)]}
       : gmap string pyval) !! heuristic = Some (PyFloat q_trees) ∧
    (0 ≤ q_oracle ≤ 1)%Qc ∧ (0 ≤ q_trees ≤ 1)%Qc.
Proof.
  apply (run_experiment_result_shape 0 [] [("B", "C")] "A" ["B"; "D"] [1]
           (ring_heap "steiner")
           (run_experiment 0 [] [("B", "C")] "A" ["B"; "D"] [1]
              (ring_heap "steiner")).2).
  - intros t ->%list_elem_of_singleton. by eexists.
  - by vm_compute.
Defined.

(** X11: a trial that returns has created exactly one graph object, the
    tagged copy of the topology with the failures removed; it has removed
    the failures from every tree, in place; and it has left every other
    graph object as it was.  So a topology handed in as one of the trees
    loses its failed nodes and links. *)
Theorem run_experiment_effect topo fn fl server subscribers trees
    (h h' : heap) G result :
  h !! topo = Some G →
  run_experiment topo fn fl server subscribers trees h = (inr result, h') →
  let c := fresh (dom h) in
  dom h' = {[ c ]} ∪ dom h ∧
  h' !! c = Some (prune fn fl (oracle_copy G)) ∧
  ∀ r, r ≠ c →
    h' !! r = if decide (r ∈ trees) then prune fn fl <$> h !! r else h !! r.
Proof.
  intros Ht Hrun c.
  rewrite (run_experiment_run _ _ _ _ _ _ _ G Ht) in Hrun. simpl in Hrun.
  fold c in Hrun.
  set (subs := list_to_set subscribers : gset node) in *.
  rewrite (get_reachability_singleton _ _ _ _ _ (oracle_copy G)) in Hrun
    by apply lookup_insert_eq.
  rewrite insert_insert_eq in Hrun.
  destruct (evaluate fn fl server subs (oracle_copy G)) as [e|Uo]; [done|].
  destruct (float_div (size Uo) (size subs)) as [e|qo]; [done|].
  rewrite get_reachability_unfold in Hrun. unfold mbind, M_bind, Py.bind in Hrun.
  destruct (Py.for_each trees (round fn fl server subs) ∅
              (<[c := prune fn fl (oracle_copy G)]> h)) as [[e|all] h4] eqn:Hloop;
    [done|].
  assert (h' = h4) as ->.
  { unfold Py.of_result in Hrun.
    destruct (float_div (size all) (size subs)); [by simplify_eq|].
    destruct (trees !! 0) as [t0|]; [|by simplify_eq].
    destruct (h4 !! t0) as [T0|]; [|by simplify_eq].
    destruct (graph T0 !! "heuristic"); by simplify_eq. }
  pose proof (λ r, for_each_round_pruned _ _ _ _ _ _ _ _ _ r Hloop) as Hheap.
  split; [|split].
  - apply set_eq. intros r. rewrite elem_of_union, elem_of_singleton.
    rewrite !elem_of_dom, Hheap.
    destruct (decide (r = c)) as [->|Hne].
    + rewrite lookup_insert_eq. split; [by left|]. intros _.
      case_decide; by eexists.
    + rewrite lookup_insert_ne by done. case_decide.
      * rewrite fmap_is_Some. naive_solver.
      * naive_solver.
  - rewrite Hheap, lookup_insert_eq. case_decide; [|done].
    simpl. by rewrite prune_idemp.
  - intros r Hne. by rewrite Hheap, lookup_insert_ne.
Qed.

Lemma run_experiment_effect_witness :
  let h' := (run_experiment 0 ["C"] [("A", "B")] "A" ["D"] [1; 0]
               (ring_heap "steiner")).2 in
  let c := fresh (dom (ring_heap "steiner")) in
  dom h' = {[ c ]} ∪ dom (ring_heap "steiner") ∧
  h' !! c = Some (prune ["C"] [("A", "B")] (oracle_copy (ring_graph "topo"))) ∧
  ∀ r, r ≠ c →
    h' !! r = if decide (r ∈ [1; 0])
              then prune ["C"] [("A", "B")] <$> ring_heap "steiner" !! r
              else ring_heap "steiner" !! r.
Proof.
  apply (run_experiment_effect 0 ["C"] [("A", "B")] "A" ["D"] [1; 0]
           (ring_heap "steiner") _ (ring_graph "topo")
           (<["steiner" := PyFloat (fraction 1 1)]>
              {["oracle" := PyFloat (fraction 1 1)]})).
  - by vm_compute.
  - by vm_compute.
Defined.

(** X12: the score filed under "oracle" does not depend on the trees: two
    trials on the same topology under the same failures, with whatever
    live trees of heuristics other than "oracle", file the same score. *)
Theorem run_experiment_oracle_ignores_trees topo fn fl server subscribers
    trees1 trees2 (h h1 h2 : heap) result1 result2 :
  (∀ t, t ∈ trees1 → is_Some (h !! t)) →
  (∀ t, t ∈ trees2 → is_Some (h !! t)) →
  heuristic_of trees1 h ≠ Some "oracle" →
  heuristic_of trees2 h ≠ Some "oracle" →
  run_experiment topo fn fl server subscribers trees1 h = (inr result1, h1) →
  run_experiment topo fn fl server subscribers trees2 h = (inr result2, h2) →
  is_Some (result1 !! "oracle") ∧ result1 !! "oracle" = result2 !! "oracle".
Proof.
  intros Hlive1 Hlive2 Hne1 Hne2 Hrun1 Hrun2.
  apply run_experiment_inv in Hrun1
    as (G1 & U1 & q1 & heur1 & HG1 & HU1 & _ & _ & Hheur1 & ->); [|done].
  apply run_experiment_inv in Hrun2
    as (G2 & U2 & q2 & heur2 & HG2 & HU2 & _ & _ & Hheur2 & ->); [|done].
  assert (G2 = G1) as -> by congruence.
  assert (U2 = U1) as -> by congruence.
  rewrite !lookup_insert_ne, !lookup_singleton_eq by congruence.
  split; [by eexists|done].
Qed.

Lemma run_experiment_oracle_ignores_trees_witness :
  is_Some ((<["steiner" := PyFloat (fraction 1 2)]>
              {["oracle" := PyFloat (fraction 2 2)]} : gmap string pyval)
           !! "oracle") ∧
  (<["steiner" := PyFloat (fraction 1 2)]> {["oracle" := PyFloat (fraction 2 2)]}
     : gmap string pyval) !! "oracle"
  = (<["steiner" := PyFloat (fraction 1 2)]> {["oracle" := PyFloat (fraction 2 2)]}
     : gmap string pyval) !! "oracle".
Proof.
  apply (run_experiment_oracle_ignores_trees 0 [] [("B", "C")] "A" ["B"; "D"]
           [1] [1; 1] (ring_heap "steiner")
           (run_experiment 0 [] [("B", "C")] "A" ["B"; "D"] [1]
              (ring_heap "steiner")).2
           (run_experiment 0 [] [("B", "C")] "A" ["B"; "D"] [1; 1]
              (ring_heap "steiner")).2).
  - intros t ->%list_elem_of_singleton. by eexists.
  - intros t [->| ->%list_elem_of_singleton]%elem_of_cons; by eexists.
  - by vm_compute.
  - by vm_compute.
  - by vm_compute.
  - by vm_compute.
Defined.

(** * Further properties of the driver *)

Section driver_records.
Context {rng fm : Type} `{!RandomSource rng, !FailureModel fm rng,
  !TopologyProvider rng}.
Implicit Types (w : world rng fm) (self : experiment).

(** The steps of a trial that returns. *)
Lemma trial_inv self r w w' :
  trial self r w = (inr tt, w') →
  ∃ subs w1 server w2 failed_nodes failed_links w3 trees w4 result h',
    choose_subscribers self w = (inr subs, w1) ∧
    choose_server self w1 = (inr server, w2) ∧
    apply_failure_model self w2 = (inr (failed_nodes, failed_links), w3) ∧
    build_mcast_trees self server subs w3 = (inr trees, w4) ∧
    run_experiment (topo self) failed_nodes failed_links server subs trees
      (objects w4) = (inr result, h') ∧
    w' = set_results (results w4 ++ [<["run" := PyInt r]> result])
           (set_objects h' w4).
Proof.
  unfold trial. py_unfold.
  destruct (choose_subscribers self w) as [[e|subs] w1] eqn:H1; [done|].
  destruct (choose_server self w1) as [[e|server] w2] eqn:H2; [done|].
  destruct (apply_failure_model self w2)
    as [[e|[failed_nodes failed_links]] w3] eqn:H3; [done|].
  destruct (build_mcast_trees self server subs w3) as [[e|trees] w4] eqn:H4;
    [done|].
  unfold on_objects, Py.zoom.
  destruct (run_experiment (topo self) failed_nodes failed_links server subs
              trees (objects w4)) as [[e|result] h'] eqn:Hrun; [done|].
  unfold record_result, Py.modify. intros [= <-].
  by exists subs, w1, server, w2, failed_nodes, failed_links, w3, trees, w4,
    result, h'.
Qed.

(** A trial that returns appends the record of the configured heuristic
    and leaves the files alone. *)
Lemma trial_appends self r w w' :
  trial self r w = (inr tt, w') →
  files w' = files w ∧
  ∃ record, results w' = results w ++ [record] ∧
            trial_record (mcast_heuristic self) r record.
Proof.
  intros (subs & w1 & server & w2 & fn & fl & w3 & trees & w4 & result & h' &
          H1 & H2 & H3 & H4 & Hrun & ->)%trial_inv.
  destruct (keeps_output_choose_subscribers self w) as [Hr1 Hf1].
  destruct (keeps_output_choose_server self w1) as [Hr2 Hf2].
  destruct (keeps_output_apply_failure_model self w2) as [Hr3 Hf3].
  destruct (keeps_output_build_mcast_trees self server subs w3) as [Hr4 Hf4].
  rewrite H1 in Hr1, Hf1. rewrite H2 in Hr2, Hf2. rewrite H3 in Hr3, Hf3.
  rewrite H4 in Hr4, Hf4. simpl in *.
  split; [congruence|].
  apply build_mcast_trees_tags in H4 as [Hlive Htag].
  apply run_experiment_scores in Hrun
    as (heuristic & qo & qh & Hheur & -> & Hqo & Hqh); [|done].
  assert (heuristic = mcast_heuristic self) as ->.
  { destruct trees as [|t0 trees]; [done|].
    rewrite Htag in Hheur by done. by simplify_eq. }
  eexists. split; [f_equal; congruence|]. by exists qo, qh.
Qed.

(** The loop over the trials. *)
Lemma for_each_trials_returns self rs w w' :
  Py.for_each rs (λ _ r, trial self r) tt w = (inr tt, w') →
  files w' = files w ∧
  ∃ records, results w' = results w ++ records ∧
             Forall2 (trial_record (mcast_heuristic self)) rs records.
Proof.
  revert w. induction rs as [|r rs IH]; intros w.
  - simpl. intros [= <-]. split; [done|]. exists []. by rewrite app_nil_r.
  - rewrite for_each_trials_cons.
    destruct (trial self r w) as [[e|[]] w1] eqn:Htrial; [done|].
    apply trial_appends in Htrial as (Hf1 & record & Hr1 & Hrec).
    intros (Hf & records & Hr & Hrecs)%IH. split; [congruence|].
    exists (record :: records). split; [|by constructor].
    by rewrite Hr, Hr1, <-app_assoc.
Qed.


(** X13: a run that returns has appended one record for each of the
    [nruns] trials, in order: record [i] holds the run index [i] under
    "run" and two fractions between 0 and 1 under "oracle" and under the
    configured heuristic name; and the output file holds the parameters
    with the whole results list. *)
Theorem run_all_experiments_returns self w w' :
  run_all_experiments self w = (inr tt, w') →
  ∃ records,
    results w' = results w ++ records ∧
    length records = Z.to_nat (nruns self) ∧
    (∀ i record, records !! i = Some record →
       trial_record (mcast_heuristic self) (Z.of_nat i) record) ∧
    files w' = <[output_filename self := (results_params self, results w')]>
                 (files w).
Proof.
  unfold run_all_experiments. py_unfold.
  destruct (Py.for_each (range (nruns self)) (λ _ r, trial self r) tt w)
    as [[e|[]] w1] eqn:Hloop; [done|].
  apply for_each_trials_returns in Hloop as (Hfiles & records & Hres & Hrecs).
  unfold output_results. py_unfold.
  destruct (writable w1 (output_filename self)); [|done]. intros [= <-]. simpl.
  exists records. split_and!; [done| | |by rewrite Hfiles].
  - apply Forall2_length in Hrecs. rewrite <-Hrecs. unfold range.
    by rewrite length_fmap, length_seq.
  - intros i record Hi.
    destruct (Forall2_lookup_r _ _ _ _ _ Hrecs Hi) as (r & Hr & Hrec).
    unfold range in Hr. rewrite list_lookup_fmap in Hr.
    destruct (seq 0 (Z.to_nat (nruns self)) !! i) as [k|] eqn:Hk; [|done].
    apply lookup_seq in Hk as [-> _]. by simplify_eq/=.
Qed.


(** X15: with a heuristic named "run" the score of the trees is lost:
    the record of a trial keeps the score of the oracle and the run index
    only. *)
Theorem trial_heuristic_named_run self r w w' :
  mcast_heuristic self = "run" →
  trial self r w = (inr tt, w') →
  ∃ q_oracle,
    results w' = results w ++ [{[ "oracle" := PyFloat q_oracle; "run" := PyInt r ]}].
Proof.
  intros Hname (_ & record & Hres & qo & qh & -> & _)%trial_appends.
  exists qo. rewrite Hres, Hname. by f_equal.
Qed.

End driver_records.

(** Two trials of two subscribers on the campus. *)
Lemma run_all_experiments_returns_witness :
  let w := campus_world 7 11 3 ∅ in
  let self := campus_experiment 2 2 2 "a.json" 7 in
  let w' := (run_all_experiments self w).2 in
  ∃ records,
    results w' = results w ++ records ∧
    length records = Z.to_nat (nruns self) ∧
    (∀ i record, records !! i = Some record →
       trial_record (mcast_heuristic self) (Z.of_nat i) record) ∧
    files w' = <[output_filename self := (results_params self, results w')]>
                 (files w).
Proof.
  apply (run_all_experiments_returns (campus_experiment 2 2 2 "a.json" 7)
           (campus_world 7 11 3 ∅)).
  by vm_compute.
Defined.


Lemma run_all_experiments_raises_two_records :
  let out := run_all_experiments (campus_experiment 2 2 2 "b.json" 7)
               (campus_world_locked 7 11 3) in
  out.1 = inl IOError ∧ length (results out.2) = 2 ∧ files out.2 = ∅.
Proof. by vm_compute. Qed.

(** The same trials with the output file "a.json", which can be
    written. *)
Lemma run_all_experiments_locked_returns :
  let self := campus_experiment 2 2 2 "a.json" 7 in
  let out := run_all_experiments self (campus_world_locked 7 11 3) in
  out.1 = inr tt ∧
  files out.2 !! "a.json" = Some (results_params self, results out.2).
Proof. by vm_compute. Qed.

(** Three trials, the server failing from the second on: one record is
    in memory when the run raises, and no file. *)
Lemma run_all_experiments_raises_one_record :
  let out := run_all_experiments (campus_experiment 3 2 2 "a.json" 7)
               (later_world 7 11 3) in
  out.1 = inl KeyError ∧ length (results out.2) = 1 ∧ files out.2 = ∅.
Proof. by vm_compute. Qed.

Lemma trial_heuristic_named_run_witness :
  ∃ q_oracle,
    results (trial (named_experiment "run" 1) 0%Z (campus_world 7 11 3 ∅)).2
    = results (campus_world 7 11 3 ∅)
      ++ [{[ "oracle" := PyFloat q_oracle; "run" := PyInt 0 ]}].
Proof.
  apply (trial_heuristic_named_run (named_experiment "run" 1) 0%Z
           (campus_world 7 11 3 ∅)).
  - done.
  - by vm_compute.
Defined.

(** * Construction, tree building and sampling *)

Section driver_setup.
Context {rng fm : Type} `{!RandomSource rng, !FailureModel fm rng,
  !TopologyProvider rng}.
Implicit Types (w : world rng fm) (self : experiment).


(** ** The trees after [build_mcast_trees] *)

Lemma tag_trees_heap v trees w w' :
  Py.for_each trees (λ _ tree,
    on_objects (rng:=rng) (fm:=fm) (set_graph_attr tree "heuristic" v)) tt w
    = (inr tt, w') →
  w' = set_objects (objects w') w ∧
  ∀ r, objects w' !! r =
       if decide (r ∈ trees) then tagged v <$> objects w !! r else objects w !! r.
Proof.
  revert w. induction trees as [|t trees IH]; intros w; simpl.
  - intros [= <-]. by destruct w.
  - unfold Py.bind, on_objects, Py.zoom. rewrite set_graph_attr_run.
    destruct (objects w !! t) as [T|] eqn:Ht; [|done].
    intros [-> Hheap]%IH. split; [done|]. intros r. rewrite Hheap. simpl.
    fold (tagged v T).
    destruct (decide (r = t)) as [->|Hne].
    + rewrite lookup_insert_eq, Ht. simpl.
      rewrite (decide_True (P := t ∈ t :: trees)) by (by left).
      case_decide; [|done]. unfold tagged. simpl. by rewrite insert_insert_eq.
    + rewrite lookup_insert_ne by done.
      destruct (decide (r ∈ trees)) as [Hin|Hout].
      * rewrite decide_True; [done|]. by right.
      * rewrite decide_False; [done|]. by intros [?|?]%elem_of_cons.
Qed.

(** X17: [build_mcast_trees] returns the trees of the provider and, on
    top of what the provider did, changes nothing but the "heuristic"
    attribute of these trees, which it sets to the configured name: nodes,
    edges and other attributes of every graph object, the results, the
    files, [self.random] and the failure model are as they were. *)
Theorem build_mcast_trees_effect self source subscribers w trees w' :
  build_mcast_trees self source subscribers w = (inr trees, w') →
  let provided :=
    get_redundant_multicast_trees (topo self) source subscribers (ntrees self)
      (mcast_heuristic self) (objects w, module_random w) in
  provided.1 = inr trees ∧
  w' = set_module_random provided.2.2 (set_objects (objects w') w) ∧
  ∀ r, objects w' !! r =
       if decide (r ∈ trees)
       then tagged (mcast_heuristic self) <$> provided.2.1 !! r
       else provided.2.1 !! r.
Proof.
  unfold build_mcast_trees. py_unfold. unfold Py.zoom at 1. simpl.
  destruct (get_redundant_multicast_trees _ _ _ _ _ _) as [[e|trees'] [h1 g1]];
    [done|]. simpl.
  destruct (Py.for_each trees' _ tt _) as [[e|[]] w1] eqn:Htag; [done|].
  intros [= -> ->]. apply tag_trees_heap in Htag as [Hw Hheap].
  split; [done|]. split; [|done]. rewrite Hw at 1. by destruct w.
Qed.

(** ** An experiment without subscribers *)

(** X18: an experiment of at least one trial with [nsubscribers = 0]
    raises in its first trial, the division by the number of subscribers
    being a division by zero at the latest; no record is kept and no file
    is written.  (A sample of size 0 is the empty list.) *)
Theorem run_all_experiments_no_subscribers self w :
  (∀ g population, (draw_sample g population 0).1 = []) →
  nsubscribers self = 0%Z →
  (0 < nruns self)%Z →
  let out := run_all_experiments self w in
  is_error out.1 ∧ results out.2 = results w ∧ files out.2 = files w.
Proof.
  intros Hsample Hns Hn. pose proof (trial_outcome self 0%Z w) as Hout.
  destruct (trial self 0%Z w) as [[e|[]] w'] eqn:Htrial.
  - simpl. rewrite (run_all_experiments_first_raises _ _ _ _ Hn Htrial).
    by destruct Hout.
  - exfalso.
    apply trial_inv in Htrial
      as (subs & w1 & server & w2 & fn & fl & w3 & trees & w4 & result & h' &
          H1 & _ & _ & H4 & Hrun & _).
    assert (subs = []) as ->.
    { revert H1. unfold choose_subscribers, sample, deref.
      world_unfold. py_unfold. rewrite Hns.
      destruct (objects w !! topo self) as [G|]; [|done]. simpl.
      case_decide; [|lia]. change (Z.to_nat 0) with 0.
      specialize (Hsample (self_random w) (get_hosts G)).
      destruct (draw_sample (self_random w) (get_hosts G) 0)
        as [chosen g'] eqn:Hdraw.
      simpl in *. subst chosen. by intros [= <- _]. }
    apply build_mcast_trees_tags in H4 as [Hlive _].
    apply run_experiment_inv in Hrun as (_ & _ & _ & _ & _ & _ & Hsubs & _);
      [|done].
    done.
Qed.

End driver_setup.

(** With the level names the module starts with, a debug level names a
    level exactly when its upper-case form is one of the seven names. *)
Lemma configured_level_default debug :
  is_Some (configured_level default_level_names debug) ↔
  upper debug ∈ ["CRITICAL"; "ERROR"; "WARN"; "WARNING"; "INFO"; "DEBUG"; "NOTSET"].
Proof.
  assert (∀ name, is_Some (default_level_names !! name) ↔
    name ∈ ["CRITICAL"; "ERROR"; "WARN"; "WARNING"; "INFO"; "DEBUG"; "NOTSET"])
    as Hnames.
  { intros name. rewrite <-elem_of_dom. unfold default_level_names.
    rewrite !dom_insert_L, dom_singleton_L. set_solver. }
  unfold configured_level.
  destruct (default_level_names !! upper debug) as [n|] eqn:Hn.
  - split; [|by eexists]. intros _. apply Hnames. by eexists.
  - split.
    + intros Hlevel%Hnames. rewrite !elem_of_cons, elem_of_nil in Hlevel.
      simpl in Hlevel. naive_solver.
    + intros Hname%Hnames. rewrite Hn in Hname. by destruct Hname.
Qed.

(** A fresh process asked for the debug level "verbose": [ValueError],
    with the handler added and nothing else touched. *)
Lemma init_unknown_level :
  init 1 2 "steiner" 2 (Some tt) ["networkx"] "verbose" "results.json"
    (Some 7%Z) (Some 11%Z) {[ "failure_rand_seed" := PyNone ]}
    (fresh_process 3 ∅)
  = (inl ValueError,
     set_logging (mkLogging default_level_names 1 30) (fresh_process 3 ∅)).
Proof. by vm_compute. Qed.

(** The same call in a process whose root logger has a handler returns:
    [basicConfig] does nothing there. *)
Lemma init_unknown_level_configured :
  init 1 2 "steiner" 2 (Some tt) ["networkx"] "verbose" "results.json"
    (Some 7%Z) (Some 11%Z) {[ "failure_rand_seed" := PyNone ]}
    (set_logging (mkLogging default_level_names 1 30) (fresh_process 3 ∅))
  = (inr (campus_experiment 1 2 2 "results.json" 7),
     campus_world_at 30 7 11 3 ∅).
Proof. by vm_compute. Qed.

(** Lower case and mixed case name the same level. *)
Lemma init_mixed_case :
  (init 1 2 "steiner" 2 (Some tt) ["networkx"] "Debug" "results.json"
     (Some 7%Z) (Some 11%Z) {[ "failure_rand_seed" := PyNone ]}
     (fresh_process 3 ∅)).2
  = campus_world_at 10 7 11 3 ∅.
Proof. by vm_compute. Qed.

Lemma build_mcast_trees_effect_witness :
  let self := campus_experiment 1 2 2 "a.json" 7 in
  let w := campus_world 7 11 3 ∅ in
  let w' := (build_mcast_trees self "A" ["B"; "C"] w).2 in
  let provided :=
    get_redundant_multicast_trees (topo self) "A" ["B"; "C"] (ntrees self)
      (mcast_heuristic self) (objects w, module_random w) in
  provided.1 = inr [1; 2] ∧
  w' = set_module_random provided.2.2 (set_objects (objects w') w) ∧
  ∀ r, objects w' !! r =
       if decide (r ∈ [1; 2])
       then tagged (mcast_heuristic self) <$> provided.2.1 !! r
       else provided.2.1 !! r.
Proof.
  apply (build_mcast_trees_effect (campus_experiment 1 2 2 "a.json" 7) "A"
           ["B"; "C"] (campus_world 7 11 3 ∅)).
  by vm_compute.
Defined.

Lemma run_all_experiments_no_subscribers_witness :
  let out := run_all_experiments (campus_experiment 3 2 0 "results.json" 7)
               (campus_world 7 11 0 ∅) in
  is_error out.1 ∧ results out.2 = results (campus_world 7 11 0 ∅) ∧
  files out.2 = files (campus_world 7 11 0 ∅).
Proof.
  apply (run_all_experiments_no_subscribers
           (campus_experiment 3 2 0 "results.json" 7) (campus_world 7 11 0 ∅)).
  - intros g population. simpl. apply take_0.
  - done.
  - done.
Defined.

Lemma run_all_experiments_no_subscribers_ZeroDivisionError :
  (run_all_experiments (campus_experiment 3 2 0 "results.json" 7)
     (campus_world 7 11 0 ∅)).1 = inl ZeroDivisionError.
Proof. by vm_compute. Qed.

(** * The topology across a run *)

(** [run_experiment], however it ends, leaves alone every live graph
    object that is not among the trees. *)
Lemma run_experiment_frame topo fn fl server subscribers trees (h : heap) r :
  is_Some (h !! r) → r ∉ trees →
  (run_experiment topo fn fl server subscribers trees h).2 !! r = h !! r.
Proof.
  intros Hlive Hnot. destruct (h !! topo) as [G|] eqn:Ht;
    [|by rewrite run_experiment_dangling].
  rewrite (run_experiment_run _ _ _ _ _ _ _ G Ht). simpl.
  set (c := fresh (dom h)).
  assert (c ≠ r) as Hc.
  { intros Heq. apply (is_fresh (dom h)). fold c. rewrite Heq.
    by apply elem_of_dom. }
  pose proof (get_reachability_frame fn fl server (list_to_set subscribers)
                [c] (<[c := oracle_copy G]> h) r) as H3.
  rewrite lookup_insert_ne in H3 by done.
  destruct (get_reachability fn fl server (list_to_set subscribers) [c]
              (<[c := oracle_copy G]> h)) as [[e|qo] h3]; simpl in H3.
  { apply H3. by intros ->%list_elem_of_singleton. }
  pose proof (get_reachability_frame fn fl server (list_to_set subscribers)
                trees h3 r Hnot) as H4.
  rewrite H3 in H4 by (by intros ->%list_elem_of_singleton).
  destruct (get_reachability fn fl server (list_to_set subscribers) trees h3)
    as [[e|qh] h4]; simpl in H4; [done|].
  destruct (trees !! 0) as [t0|]; [|done].
  destruct (h4 !! t0) as [T0|]; [|done].
  by destruct (graph T0 !! "heuristic").
Qed.

Section driver_topology.
Context {rng fm : Type} `{!RandomSource rng, !FailureModel fm rng,
  !TopologyProvider rng}.
Implicit Types (w : world rng fm) (self : experiment).

Lemma choose_subscribers_objects self w :
  objects (choose_subscribers self w).2 = objects w.
Proof.
  unfold choose_subscribers, deref. world_unfold. py_unfold.
  destruct (objects w !! topo self) as [G|]; [|done]. simpl.
  by destruct (sample (get_hosts G) (nsubscribers self) (self_random w)).
Qed.

Lemma choose_server_objects self w :
  objects (choose_server self w).2 = objects w.
Proof.
  unfold choose_server, deref. world_unfold. py_unfold.
  destruct (objects w !! topo self) as [G|]; [|done]. simpl.
  by destruct (choice (get_servers G) (self_random w)).
Qed.

Lemma apply_failure_model_objects self w :
  objects (apply_failure_model self w).2 = objects w.
Proof.
  unfold apply_failure_model, deref. world_unfold. py_unfold.
  destruct (objects w !! topo self) as [G|]; [|done]. simpl.
  by destruct (fm_apply_failure_model G (failure_model w, module_random w)).
Qed.

Lemma tag_trees_frame v trees w r :
  r ∉ trees →
  objects (Py.for_each trees (λ _ tree,
    on_objects (rng:=rng) (fm:=fm) (set_graph_attr tree "heuristic" v)) tt w).2
    !! r = objects w !! r.
Proof.
  revert w. induction trees as [|t trees IH]; intros w Hr; simpl; [done|].
  apply not_elem_of_cons in Hr as [Hne Hr].
  unfold Py.bind, on_objects, Py.zoom. rewrite set_graph_attr_run.
  destruct (objects w !! t) as [T|] eqn:Ht; [|done].
  rewrite IH by done. simpl. by rewrite lookup_insert_ne.
Qed.

Lemma trial_preserves_topology self r w :
  provider_spares_topology self →
  objects (trial self r w).2 !! topo self = objects w !! topo self.
Proof.
  intros Hprov. destruct (objects w !! topo self) as [G|] eqn:HG.
  2:{ unfold trial, choose_subscribers, deref. world_unfold. py_unfold.
      by rewrite HG. }
  unfold trial. py_unfold.
  pose proof (choose_subscribers_objects self w) as H1.
  destruct (choose_subscribers self w) as [[e|subs] w1]; simpl in *;
    [by rewrite H1|].
  pose proof (choose_server_objects self w1) as H2.
  destruct (choose_server self w1) as [[e|server] w2]; simpl in *;
    [by rewrite H2, H1|].
  pose proof (apply_failure_model_objects self w2) as H3.
  destruct (apply_failure_model self w2) as [[e|[fn fl]] w3]; simpl in *;
    [by rewrite H3, H2, H1|].
  assert (objects w3 !! topo self = Some G) as HG3 by (by rewrite H3, H2, H1).
  clear H1 H2 H3 HG.
  assert (objects (build_mcast_trees self server subs w3).2 !! topo self = Some G
          ∧ ∀ trees, (build_mcast_trees self server subs w3).1 = inr trees →
                     topo self ∉ trees) as [H4 Hnot].
  { unfold build_mcast_trees. py_unfold. unfold Py.zoom.
    destruct (Hprov server subs (objects w3, module_random w3))
      as [Hkeep Hout]; [by simpl; rewrite HG3|]. simpl in Hkeep, Hout.
    destruct (get_redundant_multicast_trees _ _ _ _ _ _)
      as [[e|trees'] [h1 g1]]; simpl in *; [by rewrite Hkeep|].
    pose proof (tag_trees_frame (mcast_heuristic self) trees'
                  (set_module_random g1 (set_objects h1 w3)) (topo self)
                  (Hout _ eq_refl)) as Hframe.
    destruct (Py.for_each trees' _ tt _) as [[e|[]] w4]; simpl in *.
    - split; [by rewrite Hframe, Hkeep|done].
    - split; [by rewrite Hframe, Hkeep|]. intros ? [= <-]. by apply Hout. }
  destruct (build_mcast_trees self server subs w3) as [[e|trees] w4];
    simpl in *; [done|].
  unfold on_objects, Py.zoom.
  pose proof (run_experiment_frame (topo self) fn fl server subs trees
                (objects w4) (topo self)) as H5.
  rewrite H4 in H5.
  destruct (run_experiment (topo self) fn fl server subs trees (objects w4))
    as [[e|result] h']; simpl in *; apply H5; eauto.
Qed.

(** X19: when the provider neither edits the graph object of the
    topology nor hands it out as a tree, a whole run, however it ends,
    leaves that object as it found it: every trial samples its hosts and
    servers from the same topology. *)
Theorem run_all_experiments_preserves_topology self w :
  provider_spares_topology self →
  objects (run_all_experiments self w).2 !! topo self = objects w !! topo self.
Proof.
  intros Hprov. unfold run_all_experiments. py_unfold.
  assert (∀ rs w, objects (Py.for_each rs (λ _ r, trial self r) tt w).2
                    !! topo self = objects w !! topo self) as Hloop.
  { induction rs as [|r rs IH]; intros w0; [done|].
    rewrite for_each_trials_cons.
    pose proof (trial_preserves_topology self r w0 Hprov) as Htrial.
    destruct (trial self r w0) as [[e|[]] w1]; simpl in *; [done|].
    by rewrite IH. }
  specialize (Hloop (range (nruns self)) w).
  destruct (Py.for_each (range (nruns self)) (λ _ r, trial self r) tt w)
    as [[e|[]] w1]; [done|].
  unfold output_results. py_unfold.
  by destruct (writable w1 (output_filename self)).
Qed.

End driver_topology.

Lemma path_provider_spares_topology nruns nsubscribers out seed :
  provider_spares_topology (campus_experiment nruns 2 nsubscribers out seed).
Proof.
  intros source subscribers [h g] Hlive. simpl in Hlive.
  assert (∀ h' : gmap nat Graph, is_Some (h' !! 0) → fresh (dom h') ≠ 0)
    as Hfresh.
  { intros h' Hin Heq. apply (is_fresh (dom h')). rewrite Heq.
    by apply elem_of_dom. }
  unfold get_redundant_multicast_trees, path_provider, Py.zoom, new_object.
  py_unfold. simpl.
  pose proof (Hfresh h Hlive) as Hc1.
  assert (is_Some (<[fresh (dom h) := campus_tree]> h !! 0)) as Hlive'
    by (by rewrite lookup_insert_ne).
  pose proof (Hfresh _ Hlive') as Hc2. split.
  - by rewrite !lookup_insert_ne.
  - intros trees [= <-]. rewrite !not_elem_of_cons. split_and!; [done..|].
    apply not_elem_of_nil.
Qed.

Lemma run_all_experiments_preserves_topology_witness :
  objects (run_all_experiments (campus_experiment 2 2 2 "a.json" 7)
             (campus_world 7 11 3 ∅)).2 !! 0
  = objects (campus_world 7 11 3 ∅) !! 0.
Proof.
  apply (run_all_experiments_preserves_topology
           (campus_experiment 2 2 2 "a.json" 7) (campus_world 7 11 3 ∅)).
  apply path_provider_spares_topology.
Defined.

(** * The candidate graphs as a set, and a subscribing server *)

Lemma accumulate_elem_of fn fl server subs (h : heap) ts ts' U U' :
  (∀ r, r ∈ ts → r ∈ ts') →
  accumulate fn fl server subs h ts ∅ = inr U →
  accumulate fn fl server subs h ts' ∅ = inr U' →
  U ⊆ U'.
Proof.
  intros Hsub HU HU' v Hv.
  apply accumulate_inv in HU as [_ HU]. apply accumulate_inv in HU' as [_ HU'].
  apply HU in Hv as [?%elem_of_empty|(r & G & found & Hr & ? & ? & ?)]; [done|].
  apply HU'. right. exists r, G, found. split; [by apply Hsub|done].
Qed.

(** X20: the outcome of [get_reachability] depends on the candidate
    graphs only as a set: listing a graph twice, or in another place,
    changes neither the fraction nor whether one is returned. *)
Theorem get_reachability_candidate_set fn fl server subs ts ts' (h : heap) :
  (∀ r, r ∈ ts ↔ r ∈ ts') →
  returned (get_reachability fn fl server subs ts h).1 =
  returned (get_reachability fn fl server subs ts' h).1.
Proof.
  intros Hset. rewrite !get_reachability_result.
  destruct (accumulate fn fl server subs h ts ∅) as [e|U] eqn:HU,
    (accumulate fn fl server subs h ts' ∅) as [e'|U'] eqn:HU'.
  - done.
  - exfalso. apply accumulate_inv in HU' as [Hall _].
    destruct (accumulate_returns fn fl server subs h ts ∅) as [U HU2];
      [|by rewrite HU in HU2].
    intros r Hr. apply Hall, Hset, Hr.
  - exfalso. apply accumulate_inv in HU as [Hall _].
    destruct (accumulate_returns fn fl server subs h ts' ∅) as [U' HU2];
      [|by rewrite HU' in HU2].
    intros r Hr. apply Hall, Hset, Hr.
  - assert (U = U') as ->; [|done].
    apply set_eq. intros v. split; intros Hv.
    + eapply (accumulate_elem_of _ _ _ _ _ ts ts'); [|done..]. apply Hset.
    + eapply (accumulate_elem_of _ _ _ _ _ ts' ts); [|done..]. apply Hset.
Qed.

Lemma get_reachability_candidate_set_witness :
  returned (get_reachability [] [("B", "C")] "A" {[ "B"; "D" ]} [1; 0; 1]
              (ring_heap "t")).1 =
  returned (get_reachability [] [("B", "C")] "A" {[ "B"; "D" ]} [0; 1]
              (ring_heap "t")).1.
Proof.
  apply get_reachability_candidate_set.
  intros r. rewrite !elem_of_cons, !elem_of_nil. tauto.
Defined.

(** X21: a server that is itself a subscriber is always counted: with at
    least one candidate graph, a returned fraction is positive. *)
Theorem get_reachability_server_subscribes fn fl server subs ts (h : heap) q :
  server ∈ subs → ts ≠ [] →
  (get_reachability fn fl server subs ts h).1 = inr q →
  (0 < q)%Qc.
Proof.
  intros Hs Hts Hq.
  assert (∃ r G, r ∈ ts ∧ h !! r = Some G ∧ server ∈ nodes G ∧ server ∉ fn)
    as (r & G & Hr & HG & HsG & Hfn).
  { destruct ts as [|r ts]; [done|].
    rewrite get_reachability_result in Hq.
    destruct (accumulate fn fl server subs h (r :: ts) ∅) as [e|U] eqn:HU;
      [done|].
    apply accumulate_inv in HU as [Hall _].
    destruct (Hall r ltac:(left)) as (G & found & HG & Hfound).
    apply evaluate_inv in Hfound as (? & ? & _ & _).
    exists r, G. split; [by left|done]. }
  apply get_reachability_inv in Hq as (U & HU & Hsize & ->).
  assert (server ∈ U) as HsU.
  { apply HU. split; [done|]. exists r, G. split; [done|]. split; [done|].
    split; [done|]. split; [done|]. apply rtc_refl. }
  assert (size U ≠ 0) as HU0.
  { rewrite size_empty_iff. intros Hempty. by apply Hempty in HsU. }
  unfold fraction, Qclt. cbn [this Q2Qc]. rewrite !Qred_correct.
  unfold Qlt. cbn [Qnum Qden]. lia.
Qed.

Lemma get_reachability_server_subscribes_witness :
  (0 < fraction 1 2)%Qc.
Proof.
  apply (get_reachability_server_subscribes ["B"; "D"] [] "A" {[ "A"; "D" ]}
           [1] path_heap).
  - by vm_compute.
  - done.
  - by vm_compute.
Defined.

(** * A trial run again *)

Lemma get_reachability_heap_cases fn fl server subs ts (h : heap) r :
  (get_reachability fn fl server subs ts h).2 !! r = h !! r ∨
  (get_reachability fn fl server subs ts h).2 !! r = prune fn fl <$> h !! r.
Proof.
  rewrite get_reachability_unfold. py_unfold.
  assert (∀ acc h,
            (Py.for_each ts (round fn fl server subs) acc h).2 !! r = h !! r ∨
            (Py.for_each ts (round fn fl server subs) acc h).2 !! r
              = prune fn fl <$> h !! r) as Hloop.
  { clear h. induction ts as [|t ts IH]; intros acc h; simpl; [by left|].
    unfold Py.bind. rewrite round_run.
    destruct (h !! t) as [G|] eqn:Ht; [|by left].
    assert (<[t:=prune fn fl G]> h !! r = h !! r ∨
            <[t:=prune fn fl G]> h !! r = prune fn fl <$> h !! r) as Hstep.
    { destruct (decide (r = t)) as [->|Hne].
      - right. by rewrite lookup_insert_eq, Ht.
      - left. by rewrite lookup_insert_ne. }
    destruct (evaluate fn fl server subs G) as [e|U]; simpl; [done|].
    destruct (IH (acc ∪ U) (<[t:=prune fn fl G]> h)) as [-> | ->]; [done|].
    right. destruct Hstep as [-> | ->]; [done|].
    destruct (h !! r) as [Gr|]; [|done]. simpl. by rewrite prune_idemp. }
  specialize (Hloop ∅ h).
  by destruct (Py.for_each ts (round fn fl server subs) ∅ h) as [[e|all] h1].
Qed.

(** However a trial ends, a graph object that was live is as it was, or
    pruned. *)
Lemma run_experiment_heap_cases topo fn fl server subscribers trees (h : heap) r :
  is_Some (h !! r) →
  (run_experiment topo fn fl server subscribers trees h).2 !! r = h !! r ∨
  (run_experiment topo fn fl server subscribers trees h).2 !! r
    = prune fn fl <$> h !! r.
Proof.
  intros Hlive. destruct (h !! topo) as [G|] eqn:Ht;
    [|by left; rewrite run_experiment_dangling].
  rewrite (run_experiment_run _ _ _ _ _ _ _ G Ht). simpl.
  set (c := fresh (dom h)). set (subs := list_to_set subscribers : gset node).
  assert (c ≠ r) as Hc.
  { intros Heq. apply (is_fresh (dom h)). fold c. rewrite Heq.
    by apply elem_of_dom. }
  rewrite (get_reachability_singleton _ _ _ _ _ (oracle_copy G))
    by apply lookup_insert_eq.
  rewrite insert_insert_eq.
  destruct (evaluate fn fl server subs (oracle_copy G)) as [e|Uo]; simpl;
    [left; by rewrite lookup_insert_ne|].
  destruct (float_div (size Uo) (size subs)) as [e|qo]; simpl;
    [left; by rewrite lookup_insert_ne|].
  pose proof (get_reachability_heap_cases fn fl server subs trees
                (<[c := prune fn fl (oracle_copy G)]> h) r) as Hcases.
  rewrite lookup_insert_ne in Hcases by done.
  destruct (get_reachability fn fl server subs trees
              (<[c := prune fn fl (oracle_copy G)]> h)) as [[e|qh] h4];
    simpl in Hcases; [done|].
  destruct (trees !! 0) as [t0|]; [|done].
  destruct (h4 !! t0) as [T0|]; [|done].
  by destruct (graph T0 !! "heuristic").
Qed.

Lemma evaluate_oracle_copy_prune fn fl server subs G :
  evaluate fn fl server subs (oracle_copy (prune fn fl G))
  = evaluate fn fl server subs (oracle_copy G).
Proof.
  unfold evaluate. simpl. rewrite !lookup_insert_eq.
  rewrite (single_source_shortest_path_ext
             (prune fn fl (oracle_copy (prune fn fl G)))
             (prune fn fl (oracle_copy G)) server); [done| |].
  - unfold prune.
    repeat rewrite ?remove_nodes_from_nodes, ?remove_edges_from_nodes. simpl.
    repeat rewrite ?remove_nodes_from_nodes, ?remove_edges_from_nodes. tauto.
  - intros u v. rewrite !adjacent_prune. unfold surviving.
    change (adjacent (oracle_copy (prune fn fl G)) u v)
      with (adjacent (prune fn fl G) u v).
    change (adjacent (oracle_copy G) u v) with (adjacent G u v).
    rewrite adjacent_prune. unfold surviving. tauto.
Qed.

(** What a trial returns, read off the heap it starts from. *)
Lemma run_experiment_result topo fn fl server subscribers trees (h : heap) G :
  h !! topo = Some G →
  (∀ t, t ∈ trees → is_Some (h !! t)) →
  let subs : gset node := list_to_set subscribers in
  (run_experiment topo fn fl server subscribers trees h).1 =
  match evaluate fn fl server subs (oracle_copy G) with
  | inl e => inl e
  | inr Uo =>
      match float_div (size Uo) (size subs) with
      | inl e => inl e
      | inr qo =>
          match (get_reachability fn fl server subs trees h).1 with
          | inl e => inl e
          | inr qh =>
              match trees !! 0 with
              | None => inl IndexError
              | Some t0 =>
                  match h !! t0 ≫= (λ T, graph T !! "heuristic") with
                  | None => inl KeyError
                  | Some heuristic =>
                      inr (<[heuristic := PyFloat qh]> {["oracle" := PyFloat qo]})
                  end
              end
          end
      end
  end.
Proof.
  intros Ht Hlive subs.
  rewrite (run_experiment_run _ _ _ _ _ _ _ G Ht). simpl. fold subs.
  set (c := fresh (dom h)).
  rewrite (get_reachability_singleton _ _ _ _ _ (oracle_copy G))
    by apply lookup_insert_eq.
  rewrite insert_insert_eq.
  destruct (evaluate fn fl server subs (oracle_copy G)) as [e|Uo]; [done|].
  destruct (float_div (size Uo) (size subs)) as [e|qo]; [done|].
  pose proof (get_reachability_fresh fn fl server subs trees h
                (prune fn fl (oracle_copy G)) Hlive) as Hfst.
  pose proof (get_reachability_graph_attr fn fl server subs trees
                (<[c := prune fn fl (oracle_copy G)]> h)) as Htags.
  fold c in Hfst. rewrite <-Hfst.
  destruct (get_reachability fn fl server subs trees
              (<[c := prune fn fl (oracle_copy G)]> h)) as [[e|qh] h4];
    [done|]. simpl in *.
  destruct (trees !! 0) as [t0|] eqn:Ht0; [|done].
  specialize (Htags t0).
  assert (t0 ≠ c) as Hne.
  { intros ->. apply (is_fresh (dom h)). fold c. apply elem_of_dom, Hlive.
    by eapply list_elem_of_lookup_2. }
  rewrite lookup_insert_ne in Htags by done.
  destruct (Hlive t0) as [T HT]; [by eapply list_elem_of_lookup_2|].
  rewrite HT in Htags |- *.
  destruct (h4 !! t0) as [T0|]; simplify_eq/=.
  rewrite Htags. by destruct (graph T !! "heuristic").
Qed.

(** X22: a trial run a second time on the graphs the first run has
    edited ends as the first did, with the same result or the same
    exception, also when the topology itself was among the trees and has
    been pruned. *)
Theorem run_experiment_again topo fn fl server subscribers trees (h : heap) :
  (∀ t, t ∈ trees → is_Some (h !! t)) →
  (run_experiment topo fn fl server subscribers trees
     (run_experiment topo fn fl server subscribers trees h).2).1
  = (run_experiment topo fn fl server subscribers trees h).1.
Proof.
  intros Hlive. set (h' := (run_experiment topo fn fl server subscribers trees h).2).
  set (subs := list_to_set subscribers : gset node).
  assert (∀ r, is_Some (h !! r) →
            h' !! r = h !! r ∨ h' !! r = prune fn fl <$> h !! r) as Hcases
    by (intros r Hr; by apply run_experiment_heap_cases).
  destruct (h !! topo) as [G|] eqn:Ht.
  2:{ subst h'. rewrite (run_experiment_dangling _ _ _ _ _ _ h Ht). simpl.
      by rewrite (run_experiment_dangling _ _ _ _ _ _ h Ht). }
  assert (∃ G', h' !! topo = Some G' ∧
            evaluate fn fl server subs (oracle_copy G')
            = evaluate fn fl server subs (oracle_copy G)) as (G' & Ht' & Hev).
  { destruct (Hcases topo) as [Heq|Heq]; [by rewrite Ht|..];
      rewrite Ht in Heq; simpl in Heq; eexists; (split; [done|]);
      [done|apply evaluate_oracle_copy_prune]. }
  assert (∀ t, t ∈ trees →
            evaluate fn fl server subs <$> h' !! t
            = evaluate fn fl server subs <$> h !! t ∧
            graph <$> h' !! t = graph <$> h !! t) as Hviews.
  { intros t Hin. destruct (Hcases t (Hlive t Hin)) as [-> | ->]; [done|].
    destruct (h !! t) as [T|]; [|done]. simpl.
    by rewrite evaluate_prune, prune_graph. }
  assert (∀ t, t ∈ trees → is_Some (h' !! t)) as Hlive'.
  { intros t Hin. destruct (Hviews t Hin) as [_ Hg].
    destruct (Hlive t Hin) as [T HT]. rewrite HT in Hg.
    destruct (h' !! t); [by eexists|done]. }
  rewrite (run_experiment_result _ _ _ _ _ _ h' G' Ht' Hlive').
  rewrite (run_experiment_result _ _ _ _ _ _ h G Ht Hlive).
  simpl. fold subs. rewrite Hev.
  rewrite !get_reachability_result.
  rewrite (accumulate_ext fn fl server subs h' h) by (intros; by apply Hviews).
  destruct (trees !! 0) as [t0|] eqn:Ht0; [|done].
  destruct (Hviews t0) as [_ Hg]; [by eapply list_elem_of_lookup_2|].
  assert (h' !! t0 ≫= (λ T, graph T !! "heuristic")
          = h !! t0 ≫= (λ T, graph T !! "heuristic")) as ->; [|done].
  destruct (h' !! t0) as [T'|], (h !! t0) as [T|]; simplify_eq/=;
    [by rewrite Hg|done].
Qed.

Lemma run_experiment_again_witness :
  (run_experiment 0 ["C"] [("A", "B")] "A" ["B"; "D"] [1; 0]
     (run_experiment 0 ["C"] [("A", "B")] "A" ["B"; "D"] [1; 0]
        (ring_heap "steiner")).2).1
  = (run_experiment 0 ["C"] [("A", "B")] "A" ["B"; "D"] [1; 0]
       (ring_heap "steiner")).1.
Proof.
  apply run_experiment_again.
  intros t [->| ->%list_elem_of_singleton]%elem_of_cons; by eexists.
Defined.
